(** * ITT localization validator: timecodes, cue extraction, comparison

    A shallow embedding of the validation engine of [streamlit_app.py]
    ([extract_itt_data], [timecode_to_frames], [check_timecode_overlap],
    [compare_files], [generate_corrected_itt]) and of the script that
    builds the page from them, together with the properties its
    specification states about it and further properties of the code.

    Text is modelled as a list of 8-bit characters holding the UTF-8
    encoding of the Python [str].  The literal parts of the patterns are
    pure ASCII, so matching them on the encoding and on code points
    agree; where the program works on characters ([\d] of the pattern,
    and [int], which take the decimal digits and the white space of every
    script) the model reads a character from its encoding.  The decimal
    digits and the white space are those of Unicode 14.0, the character
    database of CPython 3.11.  The length limit that recent interpreters
    put on the argument of [int] is a setting of the interpreter and is
    not modelled. *)

From Stdlib Require Import ZArith Ascii String Bool Arith Lia Btauto List.
From Equations Require Import Equations.
Import ListNotations.

Local Open Scope char_scope.
Local Open Scope Z_scope.

(** ** Text *)

Definition str := list ascii.

(** String literals; a double quote is written [dq], a line feed [nl]. *)
Definition lit (s : string) : str := list_ascii_of_string s.

Definition dq : ascii := "034".
Definition nl : ascii := "010".

(** ** Exceptions *)

Inductive exn : Type :=
| ValueError
| IndexError
| UnicodeDecodeError.

Inductive result (A : Type) : Type :=
| Ok (a : A)
| Raise (e : exn).

Arguments Ok {A} a.
Arguments Raise {A} e.

Definition bind {A B : Type} (r : result A) (k : A -> result B) : result B :=
  match r with
  | Ok a => k a
  | Raise e => Raise e
  end.

Notation "x <- r ;; k" := (bind r (fun x => k))
  (at level 61, r at next level, right associativity).

(** ** [str.split(":")] *)

Fixpoint split (sep : ascii) (s : str) : list str :=
  match s with
  | [] => [[]]
  | c :: s' =>
      if Ascii.eqb c sep then [] :: split sep s'
      else match split sep s' with
           | [] => [[c]]
           | field :: fields => (c :: field) :: fields
           end
  end.

(** ** [int(text)] in base ten *)

Definition code (c : ascii) : Z := Z.of_N (N_of_ascii c).

(** White space skipped around the literal: tab, line feed, vertical tab,
    form feed, carriage return and space. *)
Definition is_space (c : ascii) : bool :=
  ((9 <=? code c) && (code c <=? 13)) || (code c =? 32).

Definition digit_val (c : ascii) : option Z :=
  if (48 <=? code c) && (code c <=? 57) then Some (code c - 48) else None.

Definition is_digit (c : ascii) : bool :=
  match digit_val c with
  | Some _ => true
  | None => false
  end.

Fixpoint lstrip (s : str) : str :=
  match s with
  | c :: s' => if is_space c then lstrip s' else s
  | [] => []
  end.

(** The run of digits, where single underscores may separate digits.  It
    returns the value read and the text left; a doubled or a trailing
    underscore is an error. *)
Fixpoint scan_digits (acc : Z) (prev_underscore : bool) (s : str)
  : option (Z * str) :=
  match s with
  | [] => if prev_underscore then None else Some (acc, [])
  | c :: s' =>
      match digit_val c with
      | Some d => scan_digits (10 * acc + d) false s'
      | None =>
          if Ascii.eqb c "_" then
            if prev_underscore then None else scan_digits acc true s'
          else if prev_underscore then None else Some (acc, s)
      end
  end.

Definition int_unsigned (s : str) : option Z :=
  match s with
  | [] => None
  | c :: _ =>
      if is_digit c then
        match scan_digits 0 false s with
        | Some (v, rest) =>
            match lstrip rest with
            | [] => Some v
            | _ :: _ => None
            end
        | None => None
        end
      else None
  end.

(** The integer literal of a text in ASCII: white space, a sign, the
    digits, white space. *)
Definition long_from_string (s : str) : option Z :=
  match lstrip s with
  | c :: s' =>
      if Ascii.eqb c "+" then int_unsigned s'
      else if Ascii.eqb c "-" then option_map Z.opp (int_unsigned s')
      else int_unsigned (c :: s')
  | [] => None
  end.

(** *** Characters *)

Definition in_range (lo hi : Z) (c : ascii) : bool :=
  (lo <=? code c) && (code c <=? hi).

(** A byte that continues a character in UTF-8. *)
Definition cont : ascii -> bool := in_range 128 191.

(** The character at the head of a text: its code point and the number
    of bytes of its encoding; nothing for the empty text and where the
    bytes do not begin with a well-formed character. *)
Definition char_at (s : str) : option (Z * nat) :=
  match s with
  | [] => None
  | b0 :: s1 =>
      if in_range 0 127 b0 then Some (code b0, 1%nat)
      else
        match s1 with
        | [] => None
        | b1 :: s2 =>
            if in_range 194 223 b0 then
              if cont b1 then
                Some ((code b0 - 192) * 64 + (code b1 - 128), 2%nat)
              else None
            else
              match s2 with
              | [] => None
              | b2 :: s3 =>
                  if in_range 224 239 b0 then
                    if (if in_range 224 224 b0 then in_range 160 191 b1
                        else if in_range 237 237 b0 then in_range 128 159 b1
                        else cont b1)
                       && cont b2
                    then
                      Some ((code b0 - 224) * 4096 + (code b1 - 128) * 64
                            + (code b2 - 128), 3%nat)
                    else None
                  else
                    match s3 with
                    | [] => None
                    | b3 :: _ =>
                        if in_range 240 244 b0 then
                          if (if in_range 240 240 b0 then in_range 144 191 b1
                              else if in_range 244 244 b0
                                   then in_range 128 143 b1
                              else cont b1)
                             && cont b2 && cont b3
                          then
                            Some ((code b0 - 240) * 262144
                                  + (code b1 - 128) * 4096
                                  + (code b2 - 128) * 64
                                  + (code b3 - 128), 4%nat)
                          else None
                        else None
                    end
              end
        end
  end.

(** The decimal digits: the code point of the digit zero of every
    script; the nine code points after it are its digits one to nine. *)
Definition decimal_zeros : list Z :=
  [ 48; 1632; 1776; 1984; 2406; 2534; 2662; 2790; 2918; 3046; 3174;
    3302; 3430; 3558; 3664; 3792; 3872; 4160; 4240; 6112; 6160; 6470;
    6608; 6784; 6800; 6992; 7088; 7232; 7248; 42528; 43216; 43264;
    43472; 43504; 43600; 44016; 65296; 66720; 68912; 69734; 69872;
    69942; 70096; 70384; 70736; 70864; 71248; 71360; 71472; 71904;
    72016; 72784; 73040; 73120; 92768; 92864; 93008; 120782; 120792;
    120802; 120812; 120822; 123200; 123632; 125264; 130032 ].

Fixpoint decimal_value_in (zeros : list Z) (cp : Z) : option Z :=
  match zeros with
  | [] => None
  | z :: zeros' =>
      if (z <=? cp) && (cp <? z + 10) then Some (cp - z)
      else decimal_value_in zeros' cp
  end.

Definition decimal_value (cp : Z) : option Z :=
  decimal_value_in decimal_zeros cp.

(** The white space outside ASCII. *)
Definition is_unicode_space (cp : Z) : bool :=
  (cp =? 133) || (cp =? 160) || (cp =? 5760)
  || ((8192 <=? cp) && (cp <=? 8202))
  || (cp =? 8232) || (cp =? 8233) || (cp =? 8239) || (cp =? 8287)
  || (cp =? 12288).

(** What [int] makes of a character before it reads the literal: an
    ASCII character stays, white space becomes a space, a decimal digit
    the ASCII digit of its value, anything else a question mark (which
    no literal holds).  [b] is the first byte of the character.  (The
    interpreter turns the control character DEL into the question mark
    as well and stops at the first question mark; no literal holds DEL
    either, and what follows a refused character does not matter.) *)
Definition ascii_of_char (b : ascii) (cp : Z) : ascii :=
  if cp <? 128 then b
  else if is_unicode_space cp then " "
  else
    match decimal_value cp with
    | Some d => ascii_of_N (Z.to_N (48 + d))
    | None => "?"
    end.

(** The text character by character; [skip] counts the bytes still to
    pass of the character read last. *)
Fixpoint to_ascii_from (skip : nat) (s : str) : str :=
  match s with
  | [] => []
  | b :: s' =>
      match skip with
      | S k => to_ascii_from k s'
      | O =>
          match char_at s with
          | Some (cp, n) => ascii_of_char b cp :: to_ascii_from (n - 1) s'
          | None => "?" :: to_ascii_from 0 s'
          end
      end
  end.

Definition to_ascii (s : str) : str := to_ascii_from 0 s.

Definition py_int (s : str) : option Z := long_from_string (to_ascii s).

Definition int (s : str) : result Z :=
  match py_int s with
  | Some v => Ok v
  | None => Raise ValueError
  end.

(** ** Timecode codec *)

(** [h, m, s, f = map(int, tc.split(":"))]: the unpacking raises
    [ValueError] when the number of fields is not four, and so does [int]
    on a field that is not an integer literal. *)
Definition timecode_to_frames (tc : str) : result Z :=
  match split ":" tc with
  | [a; b; c; d] =>
      h <- int a ;;
      m <- int b ;;
      s <- int c ;;
      f <- int d ;;
      Ok ((h * 3600 + m * 60 + s) * 30 + f)
  | _ => Raise ValueError
  end.

(** ** Cues *)

(** One tuple of [re.findall]: begin timecode, end timecode, inner text. *)
Definition cue : Type := str * str * str.

Definition cue_start (c : cue) : str := fst (fst c).
Definition cue_end (c : cue) : str := snd (fst c).
Definition cue_text (c : cue) : str := snd c.

(** ** Overlap checker *)

(** The [for] loop of [check_timecode_overlap], with [prev_end] as its
    state; [return True] leaves the loop at the first overlap. *)
Fixpoint overlap_loop (prev_end : option Z) (itt_data : list cue) : result bool :=
  match itt_data with
  | [] => Ok false
  | (start, end_, _) :: rest =>
      start_frames <- timecode_to_frames start ;;
      end_frames <- timecode_to_frames end_ ;;
      match prev_end with
      | Some p =>
          if start_frames <? p then Ok true
          else overlap_loop (Some end_frames) rest
      | None => overlap_loop (Some end_frames) rest
      end
  end.

Definition check_timecode_overlap (itt_data : list cue) : result bool :=
  overlap_loop None itt_data.

(** ** Comparator *)

Definition issue : Type := str * str.

(** The condition of the [if]: [or] evaluates its right operand only when
    the left one is false. *)
Definition drift (eng_start eng_end spa_start spa_end : str) : result bool :=
  es <- timecode_to_frames eng_start ;;
  ss <- timecode_to_frames spa_start ;;
  if 3 <? Z.abs (es - ss) then Ok true
  else
    ee <- timecode_to_frames eng_end ;;
    se <- timecode_to_frames spa_end ;;
    Ok (3 <? Z.abs (ee - se)).

(** The [for i, ... in enumerate(english_data)] loop: [i] is the index of
    the head of [english_rest], [timecode_issues] the list built so far. *)
Fixpoint compare_loop (i : nat) (english_rest translated_data : list cue)
    (timecode_issues : list issue) : result (list issue) :=
  match english_rest with
  | [] => Ok timecode_issues
  | (eng_start, eng_end, eng_text) :: rest =>
      if (length translated_data <=? i)%nat then Ok timecode_issues
      else
        match nth_error translated_data i with
        | None => Raise IndexError
        | Some (spa_start, spa_end, spa_text) =>
            flagged <- drift eng_start eng_end spa_start spa_end ;;
            compare_loop (S i) rest translated_data
              (if flagged then timecode_issues ++ [(eng_text, spa_text)]
               else timecode_issues)
        end
  end.

Record ComparisonResult : Type := {
  line_count_match : bool;
  timecode_issues : list issue;
  extra_lines : list cue;
  missing_lines : list cue
}.

Definition compare_files (english_data translated_data : list cue)
  : result ComparisonResult :=
  let m := length english_data in
  let n := length translated_data in
  let line_count_match := (m =? n)%nat in
  timecode_issues <- compare_loop 0 english_data translated_data [] ;;
  let extra_lines := if (m <? n)%nat then skipn m translated_data else [] in
  let missing_lines := if (n <? m)%nat then skipn n english_data else [] in
  Ok {| line_count_match := line_count_match;
        timecode_issues := timecode_issues;
        extra_lines := extra_lines;
        missing_lines := missing_lines |}.

(** ** Corrected-document generator *)

Definition header : str :=
  lit "<?xml version='1.0' encoding='utf-8'?>" ++ [nl]
  ++ lit "<tt>" ++ [nl] ++ lit "<body>" ++ [nl].

Definition footer : str := lit "</body>" ++ [nl] ++ lit "</tt>".

Definition p_line (eng_start eng_end : str) : str :=
  lit "    <p begin=" ++ [dq] ++ eng_start ++ [dq] ++ lit " end=" ++ [dq]
  ++ eng_end ++ [dq] ++ lit ">TRANSLATED TEXT HERE</p>" ++ [nl].

Definition generate_corrected_itt (english_data : list cue) : str :=
  let corrected_output :=
    fold_left
      (fun corrected_output (c : cue) =>
         let '(eng_start, eng_end, _) := c in
         corrected_output ++ p_line eng_start eng_end)
      english_data header in
  corrected_output ++ footer.

(** ** Cue extractor *)

(** *** The pattern of [re.findall]

    [<p begin="(\d{2}:\d{2}:\d{2}:\d{2})" end="(\d{2}:\d{2}:\d{2}:\d{2})">(.*?)</p>]
    Each matcher takes the text at the current position and returns what it
    captured with the text left after it. *)

(** A literal piece of the pattern. *)
Fixpoint match_lit (p s : str) : option str :=
  match p, s with
  | [], _ => Some s
  | a :: p', b :: s' => if Ascii.eqb a b then match_lit p' s' else None
  | _ :: _, [] => None
  end.

(** [\d]: one character that is a decimal digit. *)
Definition match_d (s : str) : option (str * str) :=
  match char_at s with
  | Some (cp, n) =>
      match decimal_value cp with
      | Some _ => Some (firstn n s, skipn n s)
      | None => None
      end
  | None => None
  end.

(** [\d{2}] *)
Definition match_d2 (s : str) : option (str * str) :=
  match match_d s with
  | None => None
  | Some (a, s1) =>
      match match_d s1 with
      | None => None
      | Some (b, s2) => Some (a ++ b, s2)
      end
  end.

(** [\d{2}:\d{2}:\d{2}:\d{2}] *)
Definition match_tc (s : str) : option (str * str) :=
  match match_d2 s with
  | None => None
  | Some (h, s1) =>
      match match_lit [":"] s1 with
      | None => None
      | Some s2 =>
          match match_d2 s2 with
          | None => None
          | Some (m, s3) =>
              match match_lit [":"] s3 with
              | None => None
              | Some s4 =>
                  match match_d2 s4 with
                  | None => None
                  | Some (sec, s5) =>
                      match match_lit [":"] s5 with
                      | None => None
                      | Some s6 =>
                          match match_d2 s6 with
                          | None => None
                          | Some (f, rest) =>
                              Some (h ++ [":"] ++ m ++ [":"] ++ sec
                                    ++ [":"] ++ f, rest)
                          end
                      end
                  end
              end
          end
      end
  end.

Definition close_tag : str := lit "</p>".

(** [(.*?)</p>]: the lazy star tries the closing tag first and only then
    takes one more character; [.] takes anything but a line feed. *)
Fixpoint match_inner (s : str) : option (str * str) :=
  match match_lit close_tag s with
  | Some rest => Some ([], rest)
  | None =>
      match s with
      | [] => None
      | c :: s' =>
          if Ascii.eqb c nl then None
          else
            match match_inner s' with
            | Some (inner, rest) => Some (c :: inner, rest)
            | None => None
            end
      end
  end.

Definition open_begin : str := lit "<p begin=" ++ [dq].
Definition open_end : str := [dq] ++ lit " end=" ++ [dq].
Definition open_close : str := [dq] ++ lit ">".

(** The whole pattern at one position: the three groups and the text after
    the match.  Every piece before the lazy star has one way to match, so
    the only backtracking is the one [match_inner] does. *)
Definition match_p (s : str) : option (cue * str) :=
  match match_lit open_begin s with
  | None => None
  | Some s1 =>
      match match_tc s1 with
      | None => None
      | Some (b, s2) =>
          match match_lit open_end s2 with
          | None => None
          | Some s3 =>
              match match_tc s3 with
              | None => None
              | Some (e, s4) =>
                  match match_lit open_close s4 with
                  | None => None
                  | Some s5 =>
                      match match_inner s5 with
                      | None => None
                      | Some (inner, rest) => Some ((b, e, inner), rest)
                      end
                  end
              end
          end
      end
  end.

Definition inspect {A : Type} (a : A) : {b : A | a = b} := exist _ a eq_refl.

(** [re.findall]: the scan tries the pattern at the current position; after
    a match it goes on behind the match, otherwise one character further.
    The pattern matches no empty text, so the scan ends with the text. *)
Equations? findall (s : str) : list cue by wf (List.length s) lt :=
  findall [] := [];
  findall (c :: s') with inspect (match_p (c :: s')) := {
    | exist _ (Some (q, rest)) _ := q :: findall rest;
    | exist _ None _ := findall s' }.
Proof.
  all: try (simpl; lia).
  assert (Hlit : forall p t r, match_lit p t = Some r ->
                   (List.length t = List.length p + List.length r)%nat).
  { induction p as [|a p IH]; intros [|b t] r H; simpl in *;
      try discriminate; try (inversion H; subst; simpl; lia).
    destruct (Ascii.eqb a b); [|discriminate]. apply IH in H. lia. }
  assert (Hd : forall t a r, match_d t = Some (a, r) ->
                 (List.length r <= List.length t)%nat).
  { intros t a r H. unfold match_d in H.
    destruct (char_at t) as [[cp n]|]; [|discriminate].
    destruct (decimal_value cp); [|discriminate].
    inversion H; subst. rewrite length_skipn. lia. }
  assert (Hd2 : forall t g r, match_d2 t = Some (g, r) ->
                  (List.length r <= List.length t)%nat).
  { intros t g r H. unfold match_d2 in H.
    destruct (match_d t) as [[a t1]|] eqn:E1; [|discriminate].
    destruct (match_d t1) as [[b t2]|] eqn:E2; [|discriminate].
    inversion H; subst. apply Hd in E1, E2. lia. }
  assert (Htc : forall t b r, match_tc t = Some (b, r) ->
                  (List.length r <= List.length t)%nat).
  { intros t b r H. unfold match_tc in H.
    destruct (match_d2 t) as [[h t1]|] eqn:D1; [|discriminate].
    destruct (match_lit [":"] t1) as [t2|] eqn:L1; [|discriminate].
    destruct (match_d2 t2) as [[m t3]|] eqn:D2; [|discriminate].
    destruct (match_lit [":"] t3) as [t4|] eqn:L2; [|discriminate].
    destruct (match_d2 t4) as [[sec t5]|] eqn:D3; [|discriminate].
    destruct (match_lit [":"] t5) as [t6|] eqn:L3; [|discriminate].
    destruct (match_d2 t6) as [[f t7]|] eqn:D4; [|discriminate].
    inversion H; subst. apply Hd2 in D1, D2, D3, D4.
    apply Hlit in L1, L2, L3. simpl in *. lia. }
  assert (Hin : forall t i r, match_inner t = Some (i, r) ->
                  (List.length r < List.length t)%nat).
  { induction t as [|a t IH]; intros i r H.
    - simpl in H. discriminate.
    - cbn [match_inner] in H.
      destruct (match_lit close_tag (a :: t)) eqn:E.
      + inversion H; subst. apply Hlit in E. simpl in *. lia.
      + destruct (Ascii.eqb a nl); [discriminate|].
        destruct (match_inner t) as [[i' r']|] eqn:E2; [|discriminate].
        inversion H; subst. specialize (IH _ _ eq_refl). simpl. lia. }
  match goal with H : match_p _ = Some _ |- _ => rename H into Hm end.
  unfold match_p in Hm.
  destruct (match_lit open_begin (c :: s')) as [s1|] eqn:E1; [|discriminate].
  destruct (match_tc s1) as [[b s2]|] eqn:E2; [|discriminate].
  destruct (match_lit open_end s2) as [s3|] eqn:E3; [|discriminate].
  destruct (match_tc s3) as [[e s4]|] eqn:E4; [|discriminate].
  destruct (match_lit open_close s4) as [s5|] eqn:E5; [|discriminate].
  destruct (match_inner s5) as [[inner r]|] eqn:E6; [|discriminate].
  inversion Hm; subst.
  apply Hlit in E1, E3, E5. apply Htc in E2, E4. apply Hin in E6.
  simpl in *. lia.
Defined.

(** *** The language tag

    [re.search(r'xml:lang=["\']([a-zA-Z0-9-]+)["\']', content)] *)

Definition is_quote (c : ascii) : bool := Ascii.eqb c dq || Ascii.eqb c "'".

Definition is_lang_char (c : ascii) : bool :=
  ((97 <=? code c) && (code c <=? 122))
  || ((65 <=? code c) && (code c <=? 90))
  || is_digit c || Ascii.eqb c "-".

(** The longest run of characters of a class, and the text after it. *)
Fixpoint span (p : ascii -> bool) (s : str) : str * str :=
  match s with
  | c :: s' =>
      if p c then let (run, rest) := span p s' in (c :: run, rest)
      else ([], s)
  | [] => ([], [])
  end.

(** The greedy [+] takes the longest run; no shorter run can be followed
    by a quote, as a quote is not in the class, so giving characters back
    never helps. *)
Definition match_lang (s : str) : option str :=
  match match_lit (lit "xml:lang=") s with
  | Some (q :: s1) =>
      if is_quote q then
        match span is_lang_char s1 with
        | ((_ :: _) as tag, q' :: _) => if is_quote q' then Some tag else None
        | _ => None
        end
      else None
  | _ => None
  end.

Fixpoint search_lang (s : str) : option str :=
  match match_lang s with
  | Some tag => Some tag
  | None =>
      match s with
      | [] => None
      | _ :: s' => search_lang s'
      end
  end.

(** *** [bytes.decode("utf-8")]

    The well-formed byte sequences of UTF-8: no overlong form, no
    surrogate, nothing above U+10FFFF.  The decoded text is kept in this
    encoding, so decoding is the identity on the sequences it accepts. *)

Fixpoint utf8_valid (s : str) : bool :=
  match s with
  | [] => true
  | b0 :: s1 =>
      if in_range 0 127 b0 then utf8_valid s1
      else
        match s1 with
        | [] => false
        | b1 :: s2 =>
            if in_range 194 223 b0 then cont b1 && utf8_valid s2
            else
              match s2 with
              | [] => false
              | b2 :: s3 =>
                  if in_range 224 239 b0 then
                    (if in_range 224 224 b0 then in_range 160 191 b1
                     else if in_range 237 237 b0 then in_range 128 159 b1
                     else cont b1)
                    && cont b2 && utf8_valid s3
                  else
                    match s3 with
                    | [] => false
                    | b3 :: s4 =>
                        if in_range 240 244 b0 then
                          (if in_range 240 240 b0 then in_range 144 191 b1
                           else if in_range 244 244 b0 then in_range 128 143 b1
                           else cont b1)
                          && cont b2 && cont b3 && utf8_valid s4
                        else false
                    end
              end
        end
  end.

Definition decode_utf8 (file_content : str) : result str :=
  if utf8_valid file_content then Ok file_content
  else Raise UnicodeDecodeError.

Definition extract_itt_data (file_content : str) : result (list cue * str * str) :=
  content <- decode_utf8 file_content ;;
  let pattern := findall content in
  let lang_match := search_lang content in
  let lang_code :=
    match lang_match with
    | Some tag => tag
    | None => lit "Unknown"
    end in
  Ok (pattern, lang_code, content).

(** ** The page

    The script below the functions builds the page: a title, the two
    upload fields, and, once a reference file and at least one
    translation are there, a summary table and one expander per
    translation.  Each call that puts something on the page is a
    [widget]; its constructor stands for the call with its fixed text
    and keeps what the call is given.  A run of the script is the list
    of widgets it has put on the page, with the exception that stopped
    it, if any. *)

Record UploadedFile : Type := { file_name : str; file_read : str }.

#[warnings="-register-all"]
Inductive widget : Type :=
| w_title                      (* st.title("ITT Localization Validator") *)
| w_upload_english             (* st.file_uploader(..., key="english") *)
| w_upload_translated          (* st.file_uploader(..., key="translated") *)
| w_summary (rows : list (str * str * bool))
                               (* st.subheader("Summary Table"); st.table:
                                  file name, language code, check mark
                                  ([true]) or cross ([false]) *)
| w_expander (label : str) (body : list widget)
                               (* with st.expander(f"Results for ...") *)
| w_language_error (lang : str)     (* st.error: should not be English *)
| w_language_success (lang : str)   (* st.success: detected language *)
| w_line_count_success              (* st.success: line count matches *)
| w_line_count_warning              (* st.warning: does NOT match *)
| w_extra_lines (n : nat)           (* st.error: extra lines detected *)
| w_missing_lines (n : nat)         (* st.error: missing lines detected *)
| w_timecode_error                  (* st.error: timecode mismatches *)
| w_issue (eng_text spa_text : str) (* st.text: English / Translated *)
| w_overlap_error                   (* st.error: overlapping timecodes *)
| w_english_file (content : str)    (* col1: st.subheader; st.code *)
| w_translated_file (label content : str)  (* col2: st.subheader; st.code *)
| w_download (label corrected_itt : str).  (* st.download_button *)

Inductive script_exn : Type :=
| Engine (e : exn)
| KeyError
| NameError.

Definition ui (A : Type) : Type := list widget * (A + script_exn).

Definition ui_ret {A : Type} (a : A) : ui A := ([], inl a).

Definition ui_raise {A : Type} (e : script_exn) : ui A := ([], inr e).

Definition ui_bind {A B : Type} (m : ui A) (k : A -> ui B) : ui B :=
  match m with
  | (shown, inl a) => let (more, r) := k a in (shown ++ more, r)
  | (shown, inr e) => (shown, inr e)
  end.

Notation "x <~ m ;; k" := (ui_bind m (fun x => k))
  (at level 61, m at next level, right associativity).

Notation "m ;;; k" := (ui_bind m (fun _ => k))
  (at level 61, right associativity).

Definition show (w : widget) : ui unit := ([w], inl tt).

(** A call of one of the functions above from the script. *)
Definition engine {A : Type} (r : result A) : ui A :=
  match r with
  | Ok a => ui_ret a
  | Raise e => ui_raise (Engine e)
  end.

(** [with st.expander(...)]: what the block shows goes into the
    expander, also when the block is left by an exception. *)
Definition within_expander {A : Type} (label : str) (block : ui A) : ui A :=
  let (body, r) := block in ([w_expander label body], r).

Fixpoint show_all (ws : list widget) : ui unit :=
  match ws with
  | [] => ui_ret tt
  | w :: ws' => show w ;;; show_all ws'
  end.

(** The truth value of a list: empty is false. *)
Definition truthy {A : Type} (l : list A) : bool :=
  match l with
  | [] => false
  | _ :: _ => true
  end.

Definition str_eqb (a b : str) : bool :=
  if list_eq_dec ascii_dec a b then true else false.

(** The dictionary [translated_contents], from file names to contents. *)
Definition dict : Type := list (str * str).

Fixpoint dict_set (k v : str) (d : dict) : dict :=
  match d with
  | [] => [(k, v)]
  | (k', v') :: d' =>
      if str_eqb k k' then (k, v) :: d' else (k', v') :: dict_set k v d'
  end.

Fixpoint dict_get (k : str) (d : dict) : option str :=
  match d with
  | [] => None
  | (k', v') :: d' => if str_eqb k k' then Some v' else dict_get k d'
  end.

Definition dict_item (k : str) (d : dict) : ui str :=
  match dict_get k d with
  | Some v => ui_ret v
  | None => ui_raise KeyError
  end.

(** [errors_found = not line_count_match or timecode_issues or
    overlap_issue], as the truth value the two [if]s take of it. *)
Definition errors (res : ComparisonResult) (overlap_issue : bool) : bool :=
  negb (line_count_match res) || truthy (timecode_issues res) || overlap_issue.

(** The first loop over the translations.  It shows nothing; it builds
    the rows of the summary and the dictionary of contents, and leaves
    [errors_found] as the last pass through its body has set it ([None]
    as long as it is not bound). *)
Fixpoint summary_loop (english_data : list cue)
    (translated_files : list UploadedFile)
    (summary : list (str * str * bool)) (translated_contents : dict)
    (errors_found : option bool)
  : result (list (str * str * bool) * dict * option bool) :=
  match translated_files with
  | [] => Ok (summary, translated_contents, errors_found)
  | translated_file :: rest =>
      let file_content := file_read translated_file in
      extracted <- extract_itt_data file_content ;;
      let '(translated_data, translated_lang, translated_content) := extracted in
      let translated_contents :=
        dict_set (file_name translated_file) translated_content
          translated_contents in
      res <- compare_files english_data translated_data ;;
      overlap_issue <- check_timecode_overlap translated_data ;;
      let errors_found := errors res overlap_issue in
      summary_loop english_data rest
        (summary ++ [(file_name translated_file, translated_lang,
                      negb errors_found)])
        translated_contents (Some errors_found)
  end.

(** The block of one expander. *)
Definition report (english_data : list cue) (english_content : str)
    (errors_found : option bool) (label : str)
    (translated_data : list cue) (translated_lang translated_content : str)
  : ui unit :=
  show (if str_eqb translated_lang (lit "en")
        then w_language_error translated_lang
        else w_language_success translated_lang) ;;;
  res <~ engine (compare_files english_data translated_data) ;;
  overlap_issue <~ engine (check_timecode_overlap translated_data) ;;
  (if line_count_match res then show w_line_count_success
   else
     show w_line_count_warning ;;;
     (if truthy (extra_lines res)
      then show (w_extra_lines (List.length (extra_lines res)))
      else ui_ret tt) ;;;
     (if truthy (missing_lines res)
      then show (w_missing_lines (List.length (missing_lines res)))
      else ui_ret tt)) ;;;
  (if truthy (timecode_issues res)
   then
     show w_timecode_error ;;;
     show_all (map (fun p => w_issue (fst p) (snd p)) (timecode_issues res))
   else ui_ret tt) ;;;
  (if overlap_issue then show w_overlap_error else ui_ret tt) ;;;
  show (w_english_file english_content) ;;;
  show (w_translated_file label translated_content) ;;;
  match errors_found with
  | None => ui_raise NameError
  | Some true =>
      let corrected_itt := generate_corrected_itt english_data in
      show (w_download label corrected_itt)
  | Some false => ui_ret tt
  end.

(** The second loop over the translations.  The content comes from the
    dictionary and is extracted again; [errors_found] is not set again.
    The text is kept in its UTF-8 encoding, so [encode] changes
    nothing. *)
Fixpoint expanders_loop (english_data : list cue) (english_content : str)
    (translated_contents : dict) (errors_found : option bool)
    (translated_files : list UploadedFile) : ui unit :=
  match translated_files with
  | [] => ui_ret tt
  | translated_file :: rest =>
      translated_content <~
        dict_item (file_name translated_file) translated_contents ;;
      extracted <~ engine (extract_itt_data translated_content) ;;
      let '(translated_data, translated_lang, _) := extracted in
      within_expander (file_name translated_file)
        (report english_data english_content errors_found
           (file_name translated_file)
           translated_data translated_lang translated_content) ;;;
      expanders_loop english_data english_content translated_contents
        errors_found rest
  end.

(** The script, given what the two upload fields hold. *)
Definition main (english_file : option UploadedFile)
    (translated_files : list UploadedFile) : ui unit :=
  show w_title ;;;
  show w_upload_english ;;;
  show w_upload_translated ;;;
  match english_file, translated_files with
  | Some english_file, _ :: _ =>
      extracted <~ engine (extract_itt_data (file_read english_file)) ;;
      let '(english_data, english_lang, english_content) := extracted in
      looped <~ engine (summary_loop english_data translated_files [] [] None) ;;
      let '(summary, translated_contents, errors_found) := looped in
      show (w_summary summary) ;;;
      expanders_loop english_data english_content translated_contents
        errors_found translated_files
  | _, _ => ui_ret tt
  end.

(** * Notions of the specification *)

(** ** Timecodes and frame counts *)

(** A timecode the codec accepts, and the frame count it stands for. *)
Definition parses (tc : str) : Prop := exists n, timecode_to_frames tc = Ok n.

Definition frames (tc : str) : Z :=
  match timecode_to_frames tc with
  | Ok n => n
  | Raise _ => 0
  end.

Definition start_frames (c : cue) : Z := frames (cue_start c).
Definition end_frames (c : cue) : Z := frames (cue_end c).

Definition cue_parses (c : cue) : Prop :=
  parses (cue_start c) /\ parses (cue_end c).

(** The text splits on colons into exactly four integer literals. *)
Definition four_ints (tc : str) (H M S F : Z) : Prop :=
  exists a b c d,
    split ":" tc = [a; b; c; d] /\
    py_int a = Some H /\ py_int b = Some M /\
    py_int c = Some S /\ py_int d = Some F.

(** The minutes and seconds fields are below 60 and the frames field is
    below 30, the frame rate. *)
Definition clock_range (tc : str) : Prop :=
  exists H M S F, four_ints tc H M S F /\ M < 60 /\ S < 60 /\ F < 30.

(** [HH:MM:SS:FF]: four groups of two digits from 0 to 9, colons
    between. *)
Definition two_digits (s : str) : bool :=
  match s with
  | [a; b] => is_digit a && is_digit b
  | _ => false
  end.

Definition hhmmssff (h m s f : str) : str :=
  h ++ [":"] ++ m ++ [":"] ++ s ++ [":"] ++ f.

Definition well_formed_tc (tc : str) : Prop :=
  exists h m s f,
    two_digits h = true /\ two_digits m = true /\
    two_digits s = true /\ two_digits f = true /\
    tc = hhmmssff h m s f.

Definition well_formed_cue (c : cue) : Prop :=
  well_formed_tc (cue_start c) /\ well_formed_tc (cue_end c).

(** One decimal digit, of any script, as the bytes of its character,
    and its value. *)
Definition digit_char (d : str) (v : Z) : Prop :=
  exists cp,
    char_at d = Some (cp, List.length d) /\ decimal_value cp = Some v.

(** A group of two decimal digits, and its value. *)
Definition digit_pair (g : str) (v : Z) : Prop :=
  exists a b va vb,
    digit_char a va /\ digit_char b vb /\ g = a ++ b /\ v = 10 * va + vb.

(** A timecode as the pattern takes it: four groups of two decimal
    digits, of any script, colons between. *)
Definition timecode_text (tc : str) : Prop :=
  exists h m s f vh vm vs vf,
    digit_pair h vh /\ digit_pair m vm /\
    digit_pair s vs /\ digit_pair f vf /\
    tc = hhmmssff h m s f.

(** The ASCII digit of a value from 0 to 9. *)
Definition digit_of_value (v : Z) : ascii := ascii_of_N (Z.to_N (48 + v)).

Definition not_colon (c : ascii) : bool := negb (Ascii.eqb c ":").

(** Lexical order of text: the first differing character decides, a
    proper prefix comes first. *)
Fixpoint str_compare (a b : str) : comparison :=
  match a, b with
  | [], [] => Eq
  | [], _ :: _ => Lt
  | _ :: _, [] => Gt
  | x :: a', y :: b' =>
      match code x ?= code y with
      | Eq => str_compare a' b'
      | Lt => Lt
      | Gt => Gt
      end
  end.

Definition str_le (a b : str) : Prop := str_compare a b <> Gt.

(** ** Comparator *)

(** A pair of aligned cues drifts when its start or its end frame counts
    are more than three frames apart. *)
(** The value of a decimal digit, and of a group of two. *)
Definition dval (c : ascii) : Z := code c - 48.

Definition group_val (g : str) : Z :=
  match g with
  | [a; b] => 10 * dval a + dval b
  | _ => 0
  end.

Definition flagged (r t : cue) : bool :=
  (3 <? Z.abs (start_frames r - start_frames t))
  || (3 <? Z.abs (end_frames r - end_frames t)).

(** The aligned pairs of the overlap region that drift, in index order,
    reduced to their two texts. *)
Definition drifting_pairs (R T : list cue) : list issue :=
  map (fun p => (cue_text (fst p), cue_text (snd p)))
      (filter (fun p => flagged (fst p) (snd p)) (combine R T)).

(** The same by index: the indices of the overlap region, in increasing
    order, at which the aligned cues drift. *)
Definition no_cue : cue := ([], [], []).

Definition drifting_indices (R T : list cue) : list nat :=
  filter (fun i => flagged (nth i R no_cue) (nth i T no_cue))
         (seq 0 (Nat.min (List.length R) (List.length T))).

(** ** Overlap *)

(** Some cue starts before the cue just before it has ended. *)
Definition overlapping (cues : list cue) : Prop :=
  exists i prev cur,
    nth_error cues i = Some prev /\ nth_error cues (S i) = Some cur /\
    start_frames cur < end_frames prev.

(** What the loop still reports when it holds [prev_end]: an overlap of
    the next cue with the remembered end, or one further on. *)
Definition overlapping_after (prev_end : option Z) (cues : list cue) : Prop :=
  (exists p c rest,
      prev_end = Some p /\ cues = c :: rest /\ start_frames c < p)
  \/ overlapping cues.

(** ** The shape of a cue in a document *)

Definition p_element (c : cue) : str :=
  lit "<p begin=" ++ [dq] ++ cue_start c ++ [dq] ++ lit " end=" ++ [dq]
  ++ cue_end c ++ [dq] ++ lit ">" ++ cue_text c ++ lit "</p>".

(** The inner text stops at the next closing tag: in [inner ++ "</p>"] the
    tag occurs at the end only. *)
Definition ends_at_next_close (inner : str) : Prop :=
  forall pre post, inner ++ lit "</p>" = pre ++ lit "</p>" ++ post -> post = [].

Definition not_nl (c : ascii) : bool := negb (Ascii.eqb c nl).
Definition any_char (c : ascii) : bool := true.

Section CueScan.

(** The characters the inner text may hold. *)
Variable inner_char : ascii -> bool.

Definition cue_shape (c : cue) : Prop :=
  timecode_text (cue_start c) /\ timecode_text (cue_end c) /\
  forallb inner_char (cue_text c) = true /\
  ends_at_next_close (cue_text c).

(** A cue begins at the head of the text. *)
Definition cue_here (s : str) : Prop :=
  exists c rest, cue_shape c /\ s = p_element c ++ rest.

(** The left-to-right scan for cues that do not overlap: where a cue
    begins, it is taken and the scan goes on behind it; elsewhere the
    scan moves one character on. *)
Inductive scans : str -> list cue -> Prop :=
| scans_end : scans [] []
| scans_skip x s cs :
    ~ cue_here (x :: s) -> scans s cs -> scans (x :: s) cs
| scans_cue c rest cs :
    cue_shape c -> scans rest cs -> scans (p_element c ++ rest) (c :: cs).

End CueScan.

(** ** The generated document *)

Definition timing (c : cue) : str * str := (cue_start c, cue_end c).

Definition template_line (c : cue) : str :=
  lit "    <p begin=" ++ [dq] ++ cue_start c ++ [dq] ++ lit " end=" ++ [dq]
  ++ cue_end c ++ [dq] ++ lit ">TRANSLATED TEXT HERE</p>" ++ [nl].

(** ** Sample data *)

Definition mk_cue (b e text : string) : cue := (lit b, lit e, lit text).

(** Three reference cues; in the translation the second one ends 3 frames
    late (tolerated), the third one starts 4 frames late (drift), and two
    more cues follow. *)
Definition sample_reference : list cue :=
  [ mk_cue "00:00:00:00" "00:00:02:00" "Hello";
    mk_cue "00:00:02:00" "00:00:04:00" "How are you";
    mk_cue "00:00:04:00" "00:00:06:00" "Bye" ].

Definition sample_translated : list cue :=
  [ mk_cue "00:00:00:00" "00:00:02:00" "Hola";
    mk_cue "00:00:02:00" "00:00:04:03" "Como estas";
    mk_cue "00:00:04:04" "00:00:06:00" "Adios";
    mk_cue "00:00:06:00" "00:00:08:00" "Uno";
    mk_cue "00:00:08:00" "00:00:10:00" "Dos" ].

(** The two examples of the overlap checker: the second cue starts one
    second before the first one ends; the second cue starts where the
    first one ends. *)
Definition sample_overlapping : list cue :=
  [ mk_cue "00:00:00:00" "00:00:02:00" "a";
    mk_cue "00:00:01:00" "00:00:03:00" "b" ].

Definition sample_abutting : list cue :=
  [ mk_cue "00:00:00:00" "00:00:02:00" "a";
    mk_cue "00:00:02:00" "00:00:04:00" "b" ].

(** A document with a language tag and two cues, the second one with
    markup in its text and some text between the elements. *)
Definition sample_document : str :=
  lit "<tt xml:lang=" ++ [dq] ++ lit "fr-FR" ++ [dq] ++ lit ">" ++ [nl]
  ++ p_element (mk_cue "00:00:00:00" "00:00:02:00" "Bonjour") ++ [nl]
  ++ lit "  <p>" ++ p_element (mk_cue "00:00:02:00" "00:00:04:10" "Au <b>revoir")
  ++ lit "</p></tt>".

(** A cue whose text runs over two lines, alone in its document. *)
Definition multiline_cue : cue :=
  (lit "00:00:00:00", lit "00:00:01:00", lit "a" ++ [nl] ++ lit "b").

Definition multiline_document : str := p_element multiline_cue.

(** The two bytes of ARABIC-INDIC DIGIT ZERO (U+0660) and of the control
    character NEXT LINE (U+0085), which is white space. *)
Definition arabic_indic_zero : str := ["217"; "160"].
Definition next_line : str := ["194"; "133"].

(** A cue whose begin timecode has its hours in Arabic-Indic digits. *)
Definition arabic_indic_cue : cue :=
  (arabic_indic_zero ++ arabic_indic_zero ++ lit ":00:00:00",
   lit "00:00:01:00", lit "x").

Definition arabic_indic_document : str := p_element arabic_indic_cue.

(** * Further notions *)

(** ** Comparator *)

(** The timecodes the comparator reads of an aligned pair all parse: the
    two starts, and the two ends unless the starts already differ by more
    than three frames. *)
Definition readable (r t : cue) : Prop :=
  parses (cue_start r) /\ parses (cue_start t)
  /\ (3 < Z.abs (start_frames r - start_frames t)
      \/ (parses (cue_end r) /\ parses (cue_end t))).

Definition swap_issue (p : issue) : issue := (snd p, fst p).

(** ** Overlap *)

(** The end of a cue is not before its start. *)
Definition forward (c : cue) : Prop := start_frames c <= end_frames c.

(** ** The scaffold *)

(** A cue of the generated document: the timing of the reference cue
    with the fixed text in place of its own. *)
Definition placeholder : str := lit "TRANSLATED TEXT HERE".

Definition scaffold_cue (c : cue) : cue := (cue_start c, cue_end c, placeholder).

Definition clean : ComparisonResult :=
  {| line_count_match := true; timecode_issues := [];
     extra_lines := []; missing_lines := [] |}.

Definition not_x (c : ascii) : bool := negb (Ascii.eqb c "x").

(** ** The language attribute *)

(** The text begins with a language attribute that carries [tag]: the
    name and the equals sign, a quote of either kind, a tag of one or
    more letters, digits and hyphens, and a quote of either kind. *)
Definition lang_here (s tag : str) : Prop :=
  exists q q' rest,
    is_quote q = true /\ is_quote q' = true /\
    tag <> [] /\ forallb is_lang_char tag = true /\
    s = lit "xml:lang=" ++ [q] ++ tag ++ [q'] ++ rest.

(** No language attribute begins anywhere in the text. *)
Definition no_lang (s : str) : Prop :=
  forall pre s' tag, s = pre ++ s' -> ~ lang_here s' tag.

(** The first language attribute of the text begins behind [pre] and
    carries [tag]. *)
Definition first_lang (s pre tag : str) : Prop :=
  exists s',
    s = pre ++ s' /\ lang_here s' tag
    /\ forall pre1 pre2 t,
         pre = pre1 ++ pre2 -> pre2 <> [] -> ~ lang_here (pre2 ++ s') t.

(** ** The page *)

Definition language_of (content : str) : str :=
  match search_lang content with
  | Some tag => tag
  | None => lit "Unknown"
  end.

(** A translation passes against the reference: as many cues, no aligned
    pair that drifts, no overlap among its own cues. *)
Definition passes (R T : list cue) : Prop :=
  List.length R = List.length T /\ drifting_pairs R T = [] /\ ~ overlapping T.

(** The check mark of a summary row, as the two checks give it. *)
Definition verdict (R T : list cue) : bool :=
  match compare_files R T, check_timecode_overlap T with
  | Ok res, Ok overlap_issue => negb (errors res overlap_issue)
  | _, _ => false
  end.

Definition summary_row (R : list cue) (f : UploadedFile) : str * str * bool :=
  (file_name f, language_of (file_read f), verdict R (findall (file_read f))).

Definition decodes (f : UploadedFile) : Prop := utf8_valid (file_read f) = true.

Definition page_head : list widget :=
  [w_title; w_upload_english; w_upload_translated].

(** What [errors_found] holds after the first loop. *)
Definition errors_after (R : list cue) (files : list UploadedFile)
    (errors_found : option bool) : option bool :=
  fold_left
    (fun _ f => Some (negb (verdict R (findall (file_read f)))))
    files errors_found.

(** The download buttons among some widgets, each as its label and
    the document it offers. *)
Definition downloads (ws : list widget) : list (str * str) :=
  flat_map
    (fun w =>
       match w with
       | w_download label corrected_itt => [(label, corrected_itt)]
       | _ => []
       end)
    ws.

(** The widgets that report a finding of the checks. *)
Definition is_finding (w : widget) : bool :=
  match w with
  | w_line_count_warning | w_extra_lines _ | w_missing_lines _
  | w_timecode_error | w_issue _ _ | w_overlap_error => true
  | _ => false
  end.

(** The line on the language of a translation. *)
Definition language_line (lang : str) : widget :=
  if str_eqb lang (lit "en") then w_language_error lang
  else w_language_success lang.

(** The expander of translation [f] when [errors_found] holds [b]. *)
Definition expander_for (R : list cue) (b : bool) (f : UploadedFile)
    (w : widget) : Prop :=
  exists body,
    w = w_expander (file_name f) body
    /\ downloads body
       = (if b then [(file_name f, generate_corrected_itt R)] else [])
    /\ (exists rest, body = language_line (language_of (file_read f)) :: rest)
    /\ existsb is_finding body = negb (verdict R (findall (file_read f))).

(** The translation uploaded last. *)
Definition last_file (files : list UploadedFile) : UploadedFile :=
  last files {| file_name := []; file_read := [] |}.

(** Sample uploads: a reference of two cues, a translation with the same
    timing, and one that lacks the second cue. *)
Definition document (lang : string) (cues : list cue) : str :=
  lit "<tt xml:lang=" ++ [dq] ++ lit lang ++ [dq] ++ lit ">"
  ++ concat (map p_element cues) ++ lit "</tt>".

Definition sample_english_file : UploadedFile :=
  {| file_name := lit "guide.itt";
     file_read :=
       document "en"
         [ mk_cue "00:00:00:00" "00:00:02:00" "Hello";
           mk_cue "00:00:02:00" "00:00:04:00" "Bye" ] |}.

Definition sample_french_file : UploadedFile :=
  {| file_name := lit "fr.itt";
     file_read :=
       document "fr-FR"
         [ mk_cue "00:00:00:00" "00:00:02:00" "Bonjour";
           mk_cue "00:00:02:00" "00:00:04:00" "Salut" ] |}.

Definition sample_short_file : UploadedFile :=
  {| file_name := lit "de.itt";
     file_read :=
       document "de-DE" [ mk_cue "00:00:00:00" "00:00:02:00" "Hallo" ] |}.

(** A translation that is no UTF-8: a lone continuation byte. *)
Definition sample_broken_file : UploadedFile :=
  {| file_name := lit "xx.itt"; file_read := ["128"] |}.

(** * Properties *)

(** The timecodes of sample data parse, by evaluation. *)
Ltac parses_by_eval := repeat constructor; eexists; reflexivity.

(** A timecode is well-formed, by its four groups. *)
Ltac well_formed_by h m s f :=
  exists (lit h), (lit m), (lit s), (lit f); repeat split; reflexivity.

(** ** Timecode codec *)

Lemma int_Ok (s : str) (v : Z) : int s = Ok v <-> py_int s = Some v.
Proof.
  unfold int. destruct (py_int s); split; intros H; inversion H; reflexivity.
Qed.

Lemma four_ints_frames (tc : str) (H M S F : Z) :
  four_ints tc H M S F ->
  timecode_to_frames tc = Ok ((H * 3600 + M * 60 + S) * 30 + F).
Proof.
  intros (a & b & c & d & Hs & Ha & Hb & Hc & Hd).
  unfold timecode_to_frames. rewrite Hs.
  apply int_Ok in Ha, Hb, Hc, Hd. rewrite Ha, Hb, Hc, Hd. reflexivity.
Qed.

Lemma frames_four_ints (tc : str) (n : Z) :
  timecode_to_frames tc = Ok n ->
  exists H M S F,
    four_ints tc H M S F /\ n = (H * 3600 + M * 60 + S) * 30 + F.
Proof.
  unfold timecode_to_frames, four_ints.
  destruct (split ":" tc) as [|a [|b [|c [|d [|x l]]]]]; try discriminate.
  unfold int.
  destruct (py_int a) as [H|] eqn:Ha; [|discriminate].
  destruct (py_int b) as [M|] eqn:Hb; [|discriminate].
  destruct (py_int c) as [S|] eqn:Hc; [|discriminate].
  destruct (py_int d) as [F|] eqn:Hd; [|discriminate].
  simpl. intros E. inversion E. exists H, M, S, F. split; [|reflexivity].
  exists a, b, c, d. repeat split; assumption.
Qed.

Lemma timecode_to_frames_exn (tc : str) (e : exn) :
  timecode_to_frames tc = Raise e -> e = ValueError.
Proof.
  unfold timecode_to_frames.
  destruct (split ":" tc) as [|a [|b [|c [|d [|x l]]]]];
    try (intros E; inversion E; reflexivity).
  unfold int.
  destruct (py_int a); [|intros E; inversion E; reflexivity].
  destruct (py_int b); [|intros E; inversion E; reflexivity].
  destruct (py_int c); [|intros E; inversion E; reflexivity].
  destruct (py_int d); [|intros E; inversion E; reflexivity].
  simpl. discriminate.
Qed.

(** C4.  A text that splits on colons into exactly four integer literals
    H, M, S, F parses to the frame count ((H*3600 + M*60 + S) * 30) + F; so
    00:00:01:00 parses to 30 and 01:00:00:00 to 108000. *)
Theorem parse_frame_count :
  (forall (tc a b c d : str) (H M S F : Z),
      split ":" tc = [a; b; c; d] ->
      py_int a = Some H -> py_int b = Some M ->
      py_int c = Some S -> py_int d = Some F ->
      timecode_to_frames tc = Ok ((H * 3600 + M * 60 + S) * 30 + F))
  /\ timecode_to_frames (lit "00:00:01:00") = Ok 30
  /\ timecode_to_frames (lit "01:00:00:00") = Ok 108000.
Proof.
  split; [|split; reflexivity].
  intros tc a b c d H M S F Hs Ha Hb Hc Hd.
  apply four_ints_frames. exists a, b, c, d. repeat split; assumption.
Qed.

Lemma parse_frame_count_witness :
  timecode_to_frames (lit "01:02:03:04") = Ok ((1 * 3600 + 2 * 60 + 3) * 30 + 4).
Proof.
  apply (proj1 parse_frame_count (lit "01:02:03:04")
           (lit "01") (lit "02") (lit "03") (lit "04") 1 2 3 4);
    reflexivity.
Defined.

(** C8.  The parse fails, with the error of a malformed timecode
    ([ValueError]), exactly when the text does not split on colons into
    four integer literals; it raises nothing else, and a frame count it
    returns is the one of four such literals, never a default. *)
Theorem parse_fails_iff_malformed (tc : str) :
  (timecode_to_frames tc = Raise ValueError
   <-> ~ exists H M S F, four_ints tc H M S F)
  /\ (forall e, timecode_to_frames tc = Raise e -> e = ValueError)
  /\ (forall n, timecode_to_frames tc = Ok n ->
        exists H M S F,
          four_ints tc H M S F /\ n = (H * 3600 + M * 60 + S) * 30 + F).
Proof.
  split; [|split].
  - split.
    + intros E (H & M & S & F & H4).
      apply four_ints_frames in H4. congruence.
    + intros Hn. destruct (timecode_to_frames tc) as [n|e] eqn:E.
      * exfalso. apply Hn. apply frames_four_ints in E.
        destruct E as (H & M & S & F & H4 & _). exists H, M, S, F. exact H4.
      * apply timecode_to_frames_exn in E. rewrite E. reflexivity.
  - apply timecode_to_frames_exn.
  - apply frames_four_ints.
Qed.

Lemma parse_fails_iff_malformed_witness :
  timecode_to_frames (lit "00:00:01") = Raise ValueError.
Proof.
  apply (proj1 (parse_fails_iff_malformed (lit "00:00:01"))).
  intros (H & M & S & F & a & b & c & d & Hs & _).
  vm_compute in Hs. discriminate Hs.
Defined.

(** The literals [int] takes and refuses: a sign, surrounding white space
    and single underscores between digits are accepted. *)
Example parse_lenient_fields :
  timecode_to_frames (lit " 1:-2:+3:1_0") = Ok 104500.
Proof. reflexivity. Qed.

Example parse_refuses :
  timecode_to_frames (lit "00:00:0x:00") = Raise ValueError
  /\ timecode_to_frames (lit "00:00:01:00:00") = Raise ValueError
  /\ timecode_to_frames (lit "00:00::00") = Raise ValueError
  /\ timecode_to_frames (lit "00:00:1__0:00") = Raise ValueError.
Proof. repeat split. Qed.

(** ** Comparator *)

Lemma parses_frames (tc : str) : parses tc -> timecode_to_frames tc = Ok (frames tc).
Proof.
  intros [n H]. unfold frames. rewrite H. reflexivity.
Qed.

Lemma drift_flagged (r t : cue) :
  cue_parses r -> cue_parses t ->
  drift (cue_start r) (cue_end r) (cue_start t) (cue_end t) = Ok (flagged r t).
Proof.
  intros [Hrs Hre] [Hts Hte]. unfold drift, flagged, start_frames, end_frames.
  rewrite (parses_frames _ Hrs), (parses_frames _ Hts). cbn [bind].
  destruct (3 <? Z.abs (frames (cue_start r) - frames (cue_start t))).
  - reflexivity.
  - rewrite (parses_frames _ Hre), (parses_frames _ Hte). reflexivity.
Qed.

Lemma skipn_nth_error {A : Type} (l : list A) (i : nat) (x : A) :
  nth_error l i = Some x -> skipn i l = x :: skipn (S i) l.
Proof.
  revert i; induction l as [|y l IH]; intros [|i] H; simpl in *;
    try discriminate.
  - inversion H. reflexivity.
  - apply IH in H. exact H.
Qed.

Lemma drifting_pairs_cons (r t : cue) (R T : list cue) :
  drifting_pairs (r :: R) (t :: T)
  = (if flagged r t then [(cue_text r, cue_text t)] else [])
      ++ drifting_pairs R T.
Proof.
  unfold drifting_pairs. simpl. destruct (flagged r t); reflexivity.
Qed.

(** The loop, entered at index [i] with [acc] collected so far, adds the
    drifting pairs of what is left of the two sequences. *)
Lemma compare_loop_spec (R T : list cue) :
  Forall cue_parses R -> Forall cue_parses T ->
  forall (i : nat) (acc : list issue),
    compare_loop i R T acc = Ok (acc ++ drifting_pairs R (skipn i T)).
Proof.
  intros HR HT. induction HR as [|r R Hr HR IH]; intros i acc.
  - simpl. rewrite app_nil_r. reflexivity.
  - destruct r as [[rs re] rt]. cbn [compare_loop].
    destruct (Nat.leb_spec (List.length T) i) as [Hi|Hi].
    + rewrite skipn_all2 by exact Hi. unfold drifting_pairs.
      rewrite combine_nil. simpl. rewrite app_nil_r. reflexivity.
    + destruct (nth_error T i) as [t|] eqn:Ht.
      2:{ apply nth_error_None in Ht. lia. }
      assert (Hp : cue_parses t).
      { rewrite Forall_forall in HT. apply HT. eapply nth_error_In. exact Ht. }
      rewrite (skipn_nth_error _ _ _ Ht), drifting_pairs_cons.
      pose proof (drift_flagged (rs, re, rt) t Hr Hp) as Hd.
      destruct t as [[ts te] tt]. unfold cue_start, cue_end in Hd. simpl in Hd.
      rewrite Hd. cbn [bind]. rewrite IH.
      unfold cue_text. simpl.
      destruct (flagged (rs, re, rt) (ts, te, tt)).
      * rewrite <- app_assoc. reflexivity.
      * reflexivity.
Qed.

Lemma compare_files_Ok (R T : list cue) (res : ComparisonResult) :
  compare_files R T = Ok res ->
  line_count_match res = (List.length R =? List.length T)%nat
  /\ extra_lines res
     = (if (List.length R <? List.length T)%nat then skipn (List.length R) T else [])
  /\ missing_lines res
     = (if (List.length T <? List.length R)%nat then skipn (List.length T) R else []).
Proof.
  unfold compare_files.
  destruct (compare_loop 0 R T []) as [iss|e]; cbn [bind]; intros H;
    inversion H; subst; simpl. repeat split.
Qed.

Lemma compare_files_returns (R T : list cue) :
  Forall cue_parses R -> Forall cue_parses T ->
  exists res, compare_files R T = Ok res
              /\ timecode_issues res = drifting_pairs R T.
Proof.
  intros HR HT. unfold compare_files.
  rewrite (compare_loop_spec R T HR HT). cbn [bind app skipn].
  eexists. split; reflexivity.
Qed.

Lemma combine_by_index (R T : list cue) :
  combine R T
  = map (fun i => (nth i R no_cue, nth i T no_cue))
        (seq 0 (Nat.min (List.length R) (List.length T))).
Proof.
  revert T; induction R as [|r R IH]; intros [|t T]; try reflexivity.
  cbn [combine List.length Nat.min seq map nth].
  rewrite <- seq_shift, map_map, IH. reflexivity.
Qed.

Lemma drifting_pairs_by_index (R T : list cue) :
  drifting_pairs R T
  = map (fun i => (cue_text (nth i R no_cue), cue_text (nth i T no_cue)))
        (drifting_indices R T).
Proof.
  unfold drifting_pairs, drifting_indices.
  rewrite combine_by_index, filter_map_swap, map_map. reflexivity.
Qed.

(** C1.  On cue sequences R and T whose timecodes parse, the comparator
    returns, and its timecode issues are the pairs (R[i].text, T[i].text)
    for exactly those indices i < min(len(R), len(T)), all of them and in
    increasing order, at which the start frame counts or the end frame
    counts differ by more than 3; a pair whose two differences are at most
    3 (so also exactly 3) is not flagged. *)
Theorem timecode_issues_exact (R T : list cue) :
  Forall cue_parses R -> Forall cue_parses T ->
  (exists res,
      compare_files R T = Ok res
      /\ timecode_issues res
         = map (fun i => (cue_text (nth i R no_cue), cue_text (nth i T no_cue)))
             (filter (fun i => flagged (nth i R no_cue) (nth i T no_cue))
                     (seq 0 (Nat.min (List.length R) (List.length T)))))
  /\ (forall r t,
         flagged r t = true
         <-> 3 < Z.abs (start_frames r - start_frames t)
             \/ 3 < Z.abs (end_frames r - end_frames t)).
Proof.
  intros HR HT. split.
  - destruct (compare_files_returns R T HR HT) as (res & Hres & Hiss).
    exists res. split; [exact Hres|].
    rewrite Hiss. apply drifting_pairs_by_index.
  - intros r t. unfold flagged. rewrite orb_true_iff, !Z.ltb_lt. tauto.
Qed.

Lemma sample_reference_parses : Forall cue_parses sample_reference.
Proof. parses_by_eval. Defined.

Lemma sample_translated_parses : Forall cue_parses sample_translated.
Proof. parses_by_eval. Defined.

Lemma timecode_issues_exact_witness :
  exists res,
    compare_files sample_reference sample_translated = Ok res
    /\ timecode_issues res = [(lit "Bye", lit "Adios")].
Proof.
  destruct (timecode_issues_exact sample_reference sample_translated
              sample_reference_parses sample_translated_parses)
    as [[res [Hres Hiss]] _].
  exists res. split; [exact Hres|]. rewrite Hiss. reflexivity.
Defined.

(** C2.  Whenever the comparator returns, with m reference and n
    translated cues: line_count_match is (m == n), extra_lines is the
    suffix T[m:] when n > m and empty otherwise, missing_lines is the
    suffix R[n:] when m > n and empty otherwise; it does return on cue
    sequences whose timecodes parse; and with m = 3 and n = 5 the result
    has two extra lines, no missing line and line_count_match false. *)
Theorem comparator_line_counts (R T : list cue) :
  (forall res,
      compare_files R T = Ok res ->
      line_count_match res = (List.length R =? List.length T)%nat
      /\ extra_lines res
         = (if (List.length R <? List.length T)%nat
            then skipn (List.length R) T else [])
      /\ missing_lines res
         = (if (List.length T <? List.length R)%nat
            then skipn (List.length T) R else []))
  /\ (Forall cue_parses R -> Forall cue_parses T ->
      exists res, compare_files R T = Ok res)
  /\ (List.length R = 3%nat -> List.length T = 5%nat ->
      forall res,
        compare_files R T = Ok res ->
        List.length (extra_lines res) = 2%nat
        /\ missing_lines res = []
        /\ line_count_match res = false).
Proof.
  split; [|split].
  - apply compare_files_Ok.
  - intros HR HT. destruct (compare_files_returns R T HR HT) as [res [H _]].
    exists res. exact H.
  - intros HR HT res H. apply compare_files_Ok in H.
    destruct H as (Hl & He & Hm). rewrite Hl, He, Hm, HR, HT.
    change (3 <? 5)%nat with true. change (5 <? 3)%nat with false.
    change (3 =? 5)%nat with false. cbv iota.
    repeat split. rewrite length_skipn. lia.
Qed.

Lemma comparator_line_counts_witness :
  exists res,
    compare_files sample_reference sample_translated = Ok res
    /\ List.length (extra_lines res) = 2%nat
    /\ missing_lines res = []
    /\ line_count_match res = false.
Proof.
  destruct (comparator_line_counts sample_reference sample_translated)
    as (_ & Hret & H35).
  destruct (Hret sample_reference_parses sample_translated_parses)
    as [res Hres].
  exists res. split; [exact Hres|].
  apply (H35 eq_refl eq_refl res Hres).
Defined.

(** C9.  Whenever the comparator returns, line_count_match is true exactly
    when extra_lines and missing_lines are both empty, and at most one of
    the two is non-empty; it does return on cue sequences whose timecodes
    parse. *)
Theorem line_count_match_iff_no_extra_no_missing (R T : list cue) :
  (forall res,
      compare_files R T = Ok res ->
      (line_count_match res = true
       <-> extra_lines res = [] /\ missing_lines res = [])
      /\ (extra_lines res = [] \/ missing_lines res = []))
  /\ (Forall cue_parses R -> Forall cue_parses T ->
      exists res, compare_files R T = Ok res).
Proof.
  split.
  - intros res H. apply compare_files_Ok in H.
    destruct H as (Hl & He & Hm). rewrite Hl, He, Hm.
    assert (Hskip : forall (l : list cue) (k : nat),
               (k < List.length l)%nat -> skipn k l <> []).
    { intros l k Hk E. apply (f_equal (@List.length cue)) in E.
      rewrite length_skipn in E. simpl in E. lia. }
    destruct (Nat.ltb_spec (List.length R) (List.length T)) as [H1|H1];
      destruct (Nat.ltb_spec (List.length T) (List.length R)) as [H2|H2];
      try lia.
    + split; [|right; reflexivity]. split.
      * intros E. apply Nat.eqb_eq in E. lia.
      * intros [E _]. apply Hskip in E; [contradiction|exact H1].
    + split; [|left; reflexivity]. split.
      * intros E. apply Nat.eqb_eq in E. lia.
      * intros [_ E]. apply Hskip in E; [contradiction|exact H2].
    + split; [|left; reflexivity]. split.
      * intros _. split; reflexivity.
      * intros _. apply Nat.eqb_eq. lia.
  - intros HR HT. destruct (compare_files_returns R T HR HT) as [res [H _]].
    exists res. exact H.
Qed.

Lemma line_count_match_iff_no_extra_no_missing_witness :
  exists res,
    compare_files sample_reference sample_translated = Ok res
    /\ missing_lines res = [].
Proof.
  destruct (line_count_match_iff_no_extra_no_missing
              sample_reference sample_translated) as [Hinv Hret].
  destruct (Hret sample_reference_parses sample_translated_parses)
    as [res Hres].
  exists res. split; [exact Hres|].
  destruct (Hinv res Hres) as [_ [He|Hm]].
  - exfalso. apply compare_files_Ok in Hres.
    destruct Hres as (_ & Hx & _). rewrite Hx in He. discriminate He.
  - exact Hm.
Defined.

(** ** Overlap checker *)

Lemma overlapping_nil : ~ overlapping [].
Proof.
  intros (i & p & c & H & _). destruct i; discriminate H.
Qed.

Lemma overlapping_cons (c : cue) (cues : list cue) :
  overlapping (c :: cues) <-> overlapping_after (Some (end_frames c)) cues.
Proof.
  unfold overlapping_after, overlapping. split.
  - intros (i & p & c' & Hp & Hc & Hlt). destruct i as [|i].
    + left. simpl in Hp, Hc. inversion Hp; subst p.
      destruct cues as [|x rest]; [discriminate|].
      simpl in Hc. inversion Hc; subst x.
      exists (end_frames c), c', rest. repeat split. exact Hlt.
    + right. exists i, p, c'. simpl in Hp, Hc. repeat split; assumption.
  - intros [(p & c' & rest & Hp & Hc & Hlt)|(i & p & c' & Hp & Hc & Hlt)].
    + inversion Hp; subst p cues. exists 0%nat, c, c'. repeat split. exact Hlt.
    + exists (S i), p, c'. repeat split; assumption.
Qed.

Lemma overlap_loop_spec (cues : list cue) :
  Forall cue_parses cues ->
  forall prev_end,
  exists b, overlap_loop prev_end cues = Ok b
            /\ (b = true <-> overlapping_after prev_end cues).
Proof.
  induction 1 as [|c cues [Hs He] Hall IH]; intros prev_end.
  - exists false. split; [reflexivity|]. split; [discriminate|].
    intros [(p & c & rest & _ & Hc & _)|Ho]; [discriminate|].
    exfalso. exact (overlapping_nil Ho).
  - destruct c as [[start end_] text]. cbn [overlap_loop].
    unfold cue_start, cue_end in Hs, He. simpl in Hs, He.
    rewrite (parses_frames _ Hs), (parses_frames _ He). cbn [bind].
    destruct (IH (Some (frames end_))) as (b & Hb & Hiff).
    assert (Hgo : b = true <-> overlapping ((start, end_, text) :: cues)).
    { rewrite overlapping_cons. exact Hiff. }
    destruct prev_end as [p|].
    + destruct (Z.ltb_spec (frames start) p) as [Hlt|Hge].
      * exists true. split; [reflexivity|]. split; [|reflexivity].
        intros _. left. exists p, (start, end_, text), cues.
        repeat split. exact Hlt.
      * exists b. split; [exact Hb|]. rewrite Hgo. unfold overlapping_after.
        split; [intros Ho; right; exact Ho|].
        intros [(p' & c' & rest & Hp & Hc & Hlt)|Ho]; [|exact Ho].
        inversion Hp; subst p'. inversion Hc; subst c' rest.
        unfold start_frames, cue_start in Hlt. simpl in Hlt. lia.
    + exists b. split; [exact Hb|]. rewrite Hgo. unfold overlapping_after.
      split; [intros Ho; right; exact Ho|].
      intros [(p' & c' & rest & Hp & _)|Ho]; [discriminate|exact Ho].
Qed.

(** C3.  On a cue sequence whose timecodes parse, the overlap checker
    returns true exactly when some cue's start frame count is strictly
    less than the end frame count of the cue just before it; a cue that
    starts exactly where the one before it ends is no overlap, and a
    sequence of fewer than two cues yields false. *)
Theorem overlap_iff_starts_before_previous_end (cues : list cue) :
  Forall cue_parses cues ->
  exists b,
    check_timecode_overlap cues = Ok b
    /\ (b = true
        <-> exists i prev cur,
              nth_error cues i = Some prev
              /\ nth_error cues (S i) = Some cur
              /\ start_frames cur < end_frames prev)
    /\ ((forall i prev cur,
            nth_error cues i = Some prev ->
            nth_error cues (S i) = Some cur ->
            end_frames prev <= start_frames cur) -> b = false)
    /\ ((List.length cues < 2)%nat -> b = false).
Proof.
  intros Hall. destruct (overlap_loop_spec cues Hall None) as (b & Hb & Hiff).
  assert (Hov : b = true <-> overlapping cues).
  { rewrite Hiff. unfold overlapping_after. split; [|intros Ho; right; exact Ho].
    intros [(p & c & rest & Hp & _)|Ho]; [discriminate|exact Ho]. }
  exists b. split; [exact Hb|]. split; [exact Hov|]. split.
  - intros Habut. destruct b; [|reflexivity]. exfalso.
    destruct (proj1 Hov eq_refl) as (i & p & c & Hp & Hc & Hlt).
    specialize (Habut i p c Hp Hc). lia.
  - intros Hlen. destruct b; [|reflexivity]. exfalso.
    destruct (proj1 Hov eq_refl) as (i & p & c & Hp & Hc & Hlt).
    assert (S i < List.length cues)%nat.
    { apply nth_error_Some. rewrite Hc. discriminate. }
    lia.
Qed.

Lemma overlap_iff_starts_before_previous_end_witness :
  check_timecode_overlap sample_overlapping = Ok true
  /\ check_timecode_overlap sample_abutting = Ok false.
Proof.
  split.
  - assert (Hp : Forall cue_parses sample_overlapping)
      by parses_by_eval.
    destruct (overlap_iff_starts_before_previous_end sample_overlapping Hp)
      as (b & Hb & Hiff & _).
    rewrite Hb. f_equal. apply Hiff.
    exists 0%nat, (mk_cue "00:00:00:00" "00:00:02:00" "a"),
      (mk_cue "00:00:01:00" "00:00:03:00" "b").
    repeat split.
  - assert (Hp : Forall cue_parses sample_abutting)
      by parses_by_eval.
    destruct (overlap_iff_starts_before_previous_end sample_abutting Hp)
      as (b & Hb & _ & Habut & _).
    rewrite Hb. f_equal. apply Habut.
    intros [|[|i]] prev cur H1 H2; simpl in H1, H2; try discriminate.
    inversion H1; inversion H2; subst. vm_compute. discriminate.
Defined.

(** ** Corrected-document generator *)

Lemma generate_fold (cues : list cue) (acc : str) :
  fold_left
    (fun corrected_output (c : cue) =>
       let '(eng_start, eng_end, _) := c in
       corrected_output ++ p_line eng_start eng_end)
    cues acc
  = acc ++ concat (map template_line cues).
Proof.
  revert acc; induction cues as [|[[b e] t] cues IH]; intros acc; simpl.
  - rewrite app_nil_r. reflexivity.
  - rewrite IH, <- app_assoc. reflexivity.
Qed.

Lemma template_line_timing (c c' : cue) :
  timing c = timing c' -> template_line c = template_line c'.
Proof.
  unfold timing, template_line. intros H. inversion H. reflexivity.
Qed.

Lemma template_lines_timing (cues cues' : list cue) :
  map timing cues' = map timing cues ->
  concat (map template_line cues') = concat (map template_line cues).
Proof.
  revert cues; induction cues' as [|c' cues' IH]; intros [|c cues] H;
    cbn [map] in H; try discriminate; [reflexivity|].
  assert (Hc : timing c' = timing c) by congruence.
  assert (Hrest : map timing cues' = map timing cues) by congruence.
  cbn [map concat]. rewrite (template_line_timing c' c Hc).
  f_equal. apply IH. exact Hrest.
Qed.

(** C6.  The generated document is exactly the XML declaration line, the
    [<tt>] line, the [<body>] line, then for each reference cue, in order,
    one line of four spaces and a [p] element that carries the cue's begin
    and end texts as they are around the fixed text TRANSLATED TEXT HERE,
    then [</body>] and [</tt>].  The payload of a cue is not used: cue
    sequences with the same begin and end texts give the same document,
    whatever their payloads. *)
Theorem generator_output_exact (cues : list cue) :
  generate_corrected_itt cues
  = lit "<?xml version='1.0' encoding='utf-8'?>" ++ [nl]
    ++ lit "<tt>" ++ [nl]
    ++ lit "<body>" ++ [nl]
    ++ concat
         (map (fun c =>
                 lit "    <p begin=" ++ [dq] ++ cue_start c ++ [dq]
                 ++ lit " end=" ++ [dq] ++ cue_end c ++ [dq]
                 ++ lit ">TRANSLATED TEXT HERE</p>" ++ [nl])
              cues)
    ++ lit "</body>" ++ [nl]
    ++ lit "</tt>"
  /\ (forall cues',
        map timing cues' = map timing cues ->
        generate_corrected_itt cues' = generate_corrected_itt cues)
  /\ generate_corrected_itt [mk_cue "00:00:00:00" "00:00:02:00" "Hello"]
     = lit "<?xml version='1.0' encoding='utf-8'?>" ++ [nl]
       ++ lit "<tt>" ++ [nl]
       ++ lit "<body>" ++ [nl]
       ++ lit "    <p begin=" ++ [dq] ++ lit "00:00:00:00" ++ [dq]
       ++ lit " end=" ++ [dq] ++ lit "00:00:02:00" ++ [dq]
       ++ lit ">TRANSLATED TEXT HERE</p>" ++ [nl]
       ++ lit "</body>" ++ [nl]
       ++ lit "</tt>".
Proof.
  split; [|split].
  - unfold generate_corrected_itt. rewrite generate_fold.
    unfold header, footer. rewrite <- !app_assoc. reflexivity.
  - intros cues' H. unfold generate_corrected_itt. rewrite !generate_fold.
    rewrite (template_lines_timing cues cues' H). reflexivity.
  - reflexivity.
Qed.

Lemma generator_output_exact_witness :
  generate_corrected_itt [mk_cue "00:00:00:00" "00:00:02:00" "Bonjour"]
  = generate_corrected_itt [mk_cue "00:00:00:00" "00:00:02:00" "Hello"].
Proof.
  apply (proj1 (proj2 (generator_output_exact
                         [mk_cue "00:00:00:00" "00:00:02:00" "Hello"]))).
  reflexivity.
Defined.

(** ** Well-formed timecodes *)

Lemma is_digit_range (c : ascii) :
  is_digit c = true <-> 48 <= code c <= 57.
Proof.
  unfold is_digit, digit_val.
  destruct (Z.leb_spec 48 (code c)); destruct (Z.leb_spec (code c) 57);
    simpl; split; intros; try discriminate; try reflexivity; lia.
Qed.

Lemma digit_val_dval (c : ascii) : is_digit c = true -> digit_val c = Some (dval c).
Proof.
  intros H. apply is_digit_range in H. unfold digit_val, dval.
  destruct (Z.leb_spec 48 (code c)); destruct (Z.leb_spec (code c) 57);
    simpl; try reflexivity; lia.
Qed.

Lemma eqb_code (c : ascii) (k : ascii) : code c <> code k -> Ascii.eqb c k = false.
Proof.
  intros H. apply Ascii.eqb_neq. intros E. subst. apply H. reflexivity.
Qed.

Lemma digit_not_space (c : ascii) : is_digit c = true -> is_space c = false.
Proof.
  intros H. apply is_digit_range in H. unfold is_space.
  destruct (Z.leb_spec 9 (code c)); destruct (Z.leb_spec (code c) 13);
    destruct (Z.eqb_spec (code c) 32); simpl; try reflexivity; lia.
Qed.

Lemma two_digits_inv (g : str) :
  two_digits g = true ->
  exists a b, g = [a; b] /\ is_digit a = true /\ is_digit b = true.
Proof.
  destruct g as [|a [|b [|c g]]]; simpl; try discriminate.
  intros H. apply andb_true_iff in H. exists a, b. tauto.
Qed.

Lemma char_at_plain (b : ascii) (s : str) :
  in_range 0 127 b = true -> char_at (b :: s) = Some (code b, 1%nat).
Proof.
  intros H. cbn [char_at]. rewrite H. reflexivity.
Qed.

Lemma plain_unchanged (b : ascii) : in_range 0 127 b = true -> ascii_of_char b (code b) = b.
Proof.
  unfold in_range, ascii_of_char. intros H. apply andb_true_iff in H.
  destruct H as [_ H]. apply Z.leb_le in H.
  destruct (Z.ltb_spec (code b) 128); [reflexivity|lia].
Qed.

(** A text in ASCII is read as it is. *)
Lemma to_ascii_plain_app (pre s : str) :
  forallb (in_range 0 127) pre = true ->
  to_ascii (pre ++ s) = pre ++ to_ascii s.
Proof.
  unfold to_ascii. induction pre as [|b pre IH]; [reflexivity|].
  cbn [forallb]. intros H. apply andb_true_iff in H. destruct H as [Hb Hp].
  cbn [app to_ascii_from]. rewrite (char_at_plain b _ Hb), (plain_unchanged b Hb).
  cbn [Nat.sub]. rewrite (IH Hp). reflexivity.
Qed.

Lemma to_ascii_plain (s : str) :
  forallb (in_range 0 127) s = true -> to_ascii s = s.
Proof.
  intros H. rewrite <- (app_nil_r s) at 1.
  rewrite (to_ascii_plain_app s [] H). apply app_nil_r.
Qed.

Lemma digit_plain (c : ascii) : is_digit c = true -> in_range 0 127 c = true.
Proof.
  intros H. apply is_digit_range in H. unfold in_range.
  apply andb_true_iff. split; apply Z.leb_le; lia.
Qed.

Lemma long_two_digits (g : str) :
  two_digits g = true -> long_from_string g = Some (group_val g).
Proof.
  intros H. destruct (two_digits_inv g H) as (a & b & -> & Ha & Hb).
  unfold long_from_string. cbn [lstrip]. rewrite (digit_not_space a Ha).
  pose proof (proj1 (is_digit_range a) Ha) as Ra.
  rewrite (eqb_code a "+") by (change (code "+") with 43; lia).
  rewrite (eqb_code a "-") by (change (code "-") with 45; lia).
  unfold int_unsigned. rewrite Ha. cbn [scan_digits].
  rewrite (digit_val_dval a Ha), (digit_val_dval b Hb). cbn [lstrip group_val].
  f_equal; lia.
Qed.

Lemma py_int_two_digits (g : str) :
  two_digits g = true -> py_int g = Some (group_val g).
Proof.
  intros H. unfold py_int. rewrite to_ascii_plain; [apply long_two_digits; exact H|].
  destruct (two_digits_inv g H) as (a & b & -> & Ha & Hb).
  cbn [forallb]. rewrite (digit_plain a Ha), (digit_plain b Hb). reflexivity.
Qed.

Lemma group_val_range (g : str) : two_digits g = true -> 0 <= group_val g <= 99.
Proof.
  intros H. destruct (two_digits_inv g H) as (a & b & -> & Ha & Hb).
  apply is_digit_range in Ha, Hb. unfold group_val, dval. lia.
Qed.

Lemma split_digit (c : ascii) (s : str) :
  is_digit c = true ->
  split ":" (c :: s)
  = match split ":" s with
    | [] => [[c]]
    | field :: fields => (c :: field) :: fields
    end.
Proof.
  intros H. apply is_digit_range in H. cbn [split].
  rewrite (eqb_code c ":") by (change (code ":") with 58; lia). reflexivity.
Qed.

Lemma split_hhmmssff (h m s f : str) :
  two_digits h = true -> two_digits m = true ->
  two_digits s = true -> two_digits f = true ->
  split ":" (hhmmssff h m s f) = [h; m; s; f].
Proof.
  intros Hh Hm Hs Hf.
  destruct (two_digits_inv h Hh) as (h1 & h2 & -> & Hh1 & Hh2).
  destruct (two_digits_inv m Hm) as (m1 & m2 & -> & Hm1 & Hm2).
  destruct (two_digits_inv s Hs) as (s1 & s2 & -> & Hs1 & Hs2).
  destruct (two_digits_inv f Hf) as (f1 & f2 & -> & Hf1 & Hf2).
  unfold hhmmssff. cbn [app].
  repeat first
    [ rewrite split_digit by assumption
    | match goal with
      | |- context [split ":" (":" :: ?r)] =>
          change (split ":" (":" :: r)) with ([] :: split ":" r)
      end ].
  reflexivity.
Qed.

(** A well-formed timecode parses, to the frame count of its four
    two-digit groups. *)
Lemma well_formed_four_ints (h m s f : str) :
  two_digits h = true -> two_digits m = true ->
  two_digits s = true -> two_digits f = true ->
  four_ints (hhmmssff h m s f)
    (group_val h) (group_val m) (group_val s) (group_val f).
Proof.
  intros Hh Hm Hs Hf. exists h, m, s, f.
  split; [apply split_hhmmssff; assumption|].
  repeat split; apply py_int_two_digits; assumption.
Qed.

Lemma well_formed_parses (tc : str) :
  well_formed_tc tc -> exists n, timecode_to_frames tc = Ok n /\ 0 <= n.
Proof.
  intros (h & m & s & f & Hh & Hm & Hs & Hf & ->).
  eexists. split.
  - apply four_ints_frames. apply well_formed_four_ints; assumption.
  - pose proof (group_val_range h Hh). pose proof (group_val_range m Hm).
    pose proof (group_val_range s Hs). pose proof (group_val_range f Hf).
    lia.
Qed.

Lemma four_ints_unique (tc : str) (H M S F H' M' S' F' : Z) :
  four_ints tc H M S F -> four_ints tc H' M' S' F' ->
  H = H' /\ M = M' /\ S = S' /\ F = F'.
Proof.
  intros (a & b & c & d & Hs & Ha & Hb & Hc & Hd)
         (a' & b' & c' & d' & Hs' & Ha' & Hb' & Hc' & Hd').
  rewrite Hs in Hs'. inversion Hs'; subst. repeat split; congruence.
Qed.

(** The lexical order of two well-formed timecodes is the order of their
    digits, read from the left. *)
Lemma str_le_digits (h1 h2 m1 m2 s1 s2 f1 f2 h1' h2' m1' m2' s1' s2' f1' f2' : ascii) :
  str_le (hhmmssff [h1; h2] [m1; m2] [s1; s2] [f1; f2])
         (hhmmssff [h1'; h2'] [m1'; m2'] [s1'; s2'] [f1'; f2']) ->
  dval h1 < dval h1' \/ dval h1 = dval h1' /\
  (dval h2 < dval h2' \/ dval h2 = dval h2' /\
  (dval m1 < dval m1' \/ dval m1 = dval m1' /\
  (dval m2 < dval m2' \/ dval m2 = dval m2' /\
  (dval s1 < dval s1' \/ dval s1 = dval s1' /\
  (dval s2 < dval s2' \/ dval s2 = dval s2' /\
  (dval f1 < dval f1' \/ dval f1 = dval f1' /\
  (dval f2 <= dval f2'))))))).
Proof.
  unfold str_le, hhmmssff, dval. cbn [app str_compare].
  change (code ":" ?= code ":") with Eq. cbv iota.
  intros H.
  repeat match type of H with
         | context [code ?x ?= code ?y] =>
             destruct (Z.compare_spec (code x) (code y));
             [right; split; [lia|] | left; lia | exfalso; apply H; reflexivity]
         end.
  destruct (Z.compare_spec (code f2) (code f2'));
    [lia | lia | exfalso; apply H; reflexivity].
Qed.

(** C7, as the code has it.  For two well-formed HH:MM:SS:FF timecodes a
    and b, where the minutes and seconds of a are below 60 and its frames
    below 30: if a precedes b in lexical order, then parse(a) <= parse(b).
    (The parser accepts frames of 30 and more and minutes and seconds of
    60 and more; there the order can turn round.) *)
Theorem parse_monotone_within_clock_range (a b : str) :
  well_formed_tc a -> well_formed_tc b -> clock_range a -> str_le a b ->
  exists x y,
    timecode_to_frames a = Ok x /\ timecode_to_frames b = Ok y /\ x <= y.
Proof.
  intros (h & m & s & f & Hh & Hm & Hs & Hf & ->)
         (h' & m' & s' & f' & Hh' & Hm' & Hs' & Hf' & ->)
         (H & M & S & F & H4 & HM & HS & HF) Hle.
  pose proof (well_formed_four_ints h m s f Hh Hm Hs Hf) as Ha.
  pose proof (well_formed_four_ints h' m' s' f' Hh' Hm' Hs' Hf') as Hb.
  destruct (four_ints_unique _ _ _ _ _ _ _ _ _ H4 Ha) as (-> & -> & -> & ->).
  exists ((group_val h * 3600 + group_val m * 60 + group_val s) * 30 + group_val f),
    ((group_val h' * 3600 + group_val m' * 60 + group_val s') * 30 + group_val f').
  split; [apply four_ints_frames; exact Ha|].
  split; [apply four_ints_frames; exact Hb|].
  destruct (two_digits_inv h Hh) as (h1 & h2 & -> & Hh1 & Hh2).
  destruct (two_digits_inv m Hm) as (m1 & m2 & -> & Hm1 & Hm2).
  destruct (two_digits_inv s Hs) as (s1 & s2 & -> & Hs1 & Hs2).
  destruct (two_digits_inv f Hf) as (f1 & f2 & -> & Hf1 & Hf2).
  destruct (two_digits_inv h' Hh') as (h1' & h2' & -> & Hh1' & Hh2').
  destruct (two_digits_inv m' Hm') as (m1' & m2' & -> & Hm1' & Hm2').
  destruct (two_digits_inv s' Hs') as (s1' & s2' & -> & Hs1' & Hs2').
  destruct (two_digits_inv f' Hf') as (f1' & f2' & -> & Hf1' & Hf2').
  apply str_le_digits in Hle.
  apply is_digit_range in Hh1, Hh2, Hm1, Hm2, Hs1, Hs2, Hf1, Hf2,
    Hh1', Hh2', Hm1', Hm2', Hs1', Hs2', Hf1', Hf2'.
  unfold group_val, dval in *. lia.
Qed.

Lemma parse_monotone_within_clock_range_witness :
  exists x y,
    timecode_to_frames (lit "00:59:59:29") = Ok x
    /\ timecode_to_frames (lit "01:00:00:00") = Ok y /\ x <= y.
Proof.
  apply parse_monotone_within_clock_range.
  - exists (lit "00"), (lit "59"), (lit "59"), (lit "29").
    repeat split; reflexivity.
  - exists (lit "01"), (lit "00"), (lit "00"), (lit "00").
    repeat split; reflexivity.
  - exists 0, 59, 59, 29. split.
    + exists (lit "00"), (lit "59"), (lit "59"), (lit "29").
      repeat split; reflexivity.
    + repeat split; reflexivity.
  - unfold str_le. vm_compute. discriminate.
Defined.

(** C7 as stated fails: 00:00:00:99 is well-formed and precedes
    00:00:01:00 in lexical order, yet it parses to 99 frames and the other
    one to 30. *)
Lemma parse_not_monotone :
  ~ (well_formed_tc (lit "00:00:00:99") ->
     well_formed_tc (lit "00:00:01:00") ->
     str_le (lit "00:00:00:99") (lit "00:00:01:00") ->
     forall x y,
       timecode_to_frames (lit "00:00:00:99") = Ok x ->
       timecode_to_frames (lit "00:00:01:00") = Ok y ->
       x <= y).
Proof.
  intros H.
  assert (99 <= 30); [|lia].
  apply H.
  - exists (lit "00"), (lit "00"), (lit "00"), (lit "99").
    repeat split; reflexivity.
  - exists (lit "00"), (lit "00"), (lit "01"), (lit "00").
    repeat split; reflexivity.
  - unfold str_le. vm_compute. discriminate.
  - reflexivity.
  - reflexivity.
Qed.

(** ** The pattern *)

Lemma match_lit_spec (p s rest : str) :
  match_lit p s = Some rest <-> s = p ++ rest.
Proof.
  revert s; induction p as [|a p IH]; intros s.
  - destruct s; simpl; split; intros H; inversion H; reflexivity.
  - destruct s as [|b s]; simpl.
    + split; discriminate.
    + destruct (Ascii.eqb_spec a b) as [->|Hne].
      * rewrite IH. split; intros H; [rewrite H; reflexivity|].
        inversion H. reflexivity.
      * split; [discriminate|]. intros H. inversion H. congruence.
Qed.

Lemma match_lit_None (p s : str) :
  match_lit p s = None <-> forall rest, s <> p ++ rest.
Proof.
  split.
  - intros H rest E. apply match_lit_spec in E. congruence.
  - intros H. destruct (match_lit p s) as [rest|] eqn:E; [|reflexivity].
    apply match_lit_spec in E. exfalso. exact (H rest E).
Qed.

(** *** Characters and decimal digits *)

Lemma code_range (c : ascii) : 0 <= code c < 256.
Proof.
  unfold code. pose proof (N_ascii_bounded c). lia.
Qed.

Lemma in_range_spec (lo hi : Z) (c : ascii) :
  in_range lo hi c = true <-> lo <= code c <= hi.
Proof.
  unfold in_range. rewrite andb_true_iff, !Z.leb_le. tauto.
Qed.

Lemma in_range_false (lo hi : Z) (c : ascii) :
  in_range lo hi c = false <-> ~ (lo <= code c <= hi).
Proof.
  unfold in_range. rewrite andb_false_iff, !Z.leb_gt. lia.
Qed.

(** The tests on bytes as inequalities, for [lia]. *)
Ltac ranges :=
  unfold cont in *;
  repeat match goal with
         | H : _ && _ = true |- _ => apply andb_true_iff in H; destruct H
         | H : in_range _ _ _ = true |- _ => apply in_range_spec in H
         | H : in_range _ _ _ = false |- _ => apply in_range_false in H
         end.

Ltac split_ifs :=
  repeat match goal with
         | H : context [if ?c then _ else _] |- _ => destruct c eqn:?
         | |- context [if ?c then _ else _] => destruct c eqn:?
         end.

Lemma decimal_value_in_spec (zeros : list Z) (cp v : Z) :
  decimal_value_in zeros cp = Some v ->
  exists z, In z zeros /\ z <= cp < z + 10 /\ v = cp - z.
Proof.
  induction zeros as [|z zeros IH]; [discriminate|].
  cbn [decimal_value_in]. intros H.
  destruct (Z.leb_spec z cp) as [H1|H1];
    destruct (Z.ltb_spec cp (z + 10)) as [H2|H2]; cbn [andb] in H;
    try (destruct (IH H) as (z' & Hin & Hz);
         exists z'; split; [right; exact Hin|exact Hz]).
  injection H as <-. exists z. split; [left; reflexivity|lia].
Qed.

Lemma decimal_value_range (cp v : Z) : decimal_value cp = Some v -> 0 <= v <= 9.
Proof.
  intros H. apply decimal_value_in_spec in H. destruct H as (z & _ & Hz & ->). lia.
Qed.

Lemma decimal_value_ascii (cp : Z) :
  48 <= cp <= 57 -> decimal_value cp = Some (cp - 48).
Proof.
  intros H. unfold decimal_value, decimal_zeros. cbn [decimal_value_in].
  destruct (Z.leb_spec 48 cp); destruct (Z.ltb_spec cp (48 + 10)); try lia.
  reflexivity.
Qed.

(** The only decimal digits in ASCII are 0 to 9. *)
Lemma decimal_value_below_128 (cp v : Z) :
  decimal_value cp = Some v -> cp < 128 -> 48 <= cp <= 57 /\ v = cp - 48.
Proof.
  intros H Hlt. apply decimal_value_in_spec in H.
  destruct H as (z & Hin & Hz & ->).
  assert (Hall : forallb (fun z => (z =? 48) || (128 <=? z)) decimal_zeros = true)
    by reflexivity.
  rewrite forallb_forall in Hall. specialize (Hall z Hin).
  apply orb_true_iff in Hall. destruct Hall as [E|E].
  - apply Z.eqb_eq in E. lia.
  - apply Z.leb_le in E. lia.
Qed.

(** No decimal digit is white space. *)
Lemma decimal_not_space (cp v : Z) :
  decimal_value cp = Some v -> is_unicode_space cp = false.
Proof.
  intros H. apply decimal_value_in_spec in H.
  destruct H as (z & Hin & Hz & _).
  assert (Hall : forallb
                   (fun z => negb (existsb (fun k => is_unicode_space (z + k))
                                      [0; 1; 2; 3; 4; 5; 6; 7; 8; 9]))
                   decimal_zeros = true) by reflexivity.
  rewrite forallb_forall in Hall. specialize (Hall z Hin).
  apply negb_true_iff in Hall.
  destruct (is_unicode_space cp) eqn:E; [|reflexivity].
  rewrite <- Hall. symmetry. apply existsb_exists.
  exists (cp - z). split.
  - assert (Hk : cp - z = 0 \/ cp - z = 1 \/ cp - z = 2 \/ cp - z = 3
                 \/ cp - z = 4 \/ cp - z = 5 \/ cp - z = 6 \/ cp - z = 7
                 \/ cp - z = 8 \/ cp - z = 9) by lia.
    cbn [In]. intuition.
  - replace (z + (cp - z)) with cp by lia. exact E.
Qed.

(** A character that fills its text: one ASCII byte, or several bytes
    none of which is ASCII and a code point from 128 on. *)
Lemma char_at_whole (d : str) (cp : Z) :
  char_at d = Some (cp, List.length d) ->
  (exists b, d = [b] /\ in_range 0 127 b = true /\ cp = code b)
  \/ (128 <= cp /\ forallb (fun c => 128 <=? code c) d = true).
Proof.
  destruct d as [|b0 [|b1 [|b2 [|b3 [|b4 d]]]]]; cbn [char_at List.length];
    intros H; split_ifs; try discriminate H; injection H as H;
    try (left; exists b0; repeat split; [assumption|symmetry; assumption]);
    right; ranges; subst cp; cbn [forallb];
    (split; [lia|]);
    repeat (apply andb_true_iff; split); try reflexivity;
    apply Z.leb_le; lia.
Qed.

Lemma char_at_app (d : str) (cp : Z) (X : str) :
  char_at d = Some (cp, List.length d) ->
  char_at (d ++ X) = Some (cp, List.length d).
Proof.
  destruct d as [|b0 [|b1 [|b2 [|b3 [|b4 d]]]]]; cbn [char_at List.length app];
    intros H; split_ifs; try discriminate H; try exact H;
    injection H as _ H; discriminate H.
Qed.

Lemma char_at_firstn (s : str) (cp : Z) (n : nat) :
  char_at s = Some (cp, n) ->
  char_at (firstn n s) = Some (cp, n) /\ List.length (firstn n s) = n.
Proof.
  destruct s as [|b0 [|b1 [|b2 [|b3 s]]]]; cbn [char_at];
    intros H; split_ifs; try discriminate H; injection H as <- <-;
    cbn [firstn char_at List.length];
    repeat match goal with
           | H : ?c = _ |- context [if ?c then _ else _] => rewrite H
           end;
    split; reflexivity.
Qed.

Lemma char_at_length (s : str) (cp : Z) (n : nat) :
  char_at s = Some (cp, n) -> (1 <= n <= List.length s)%nat.
Proof.
  intros H. destruct (char_at_firstn s cp n H) as [_ Hl].
  rewrite length_firstn in Hl.
  destruct s as [|b s]; [discriminate H|].
  destruct n; [|lia]. exfalso. revert H.
  destruct s as [|b1 [|b2 [|b3 s]]]; cbn [char_at]; intros H;
    split_ifs; discriminate H.
Qed.

(** *** [int] on decimal digits *)

Lemma digit_of_value_spec (v : Z) :
  0 <= v <= 9 -> is_digit (digit_of_value v) = true /\ dval (digit_of_value v) = v.
Proof.
  intros H.
  assert (Hv : v = 0 \/ v = 1 \/ v = 2 \/ v = 3 \/ v = 4 \/ v = 5 \/ v = 6
               \/ v = 7 \/ v = 8 \/ v = 9) by lia.
  repeat (destruct Hv as [->|Hv]; [split; reflexivity|]).
  subst v. split; reflexivity.
Qed.

Lemma to_ascii_skip (pre X : str) :
  to_ascii_from (List.length pre) (pre ++ X) = to_ascii_from 0 X.
Proof.
  induction pre as [|b pre IH]; [reflexivity|exact IH].
Qed.

(** A decimal digit is read as the ASCII digit of its value. *)
Lemma to_ascii_digit (a : str) (v : Z) (X : str) :
  digit_char a v -> to_ascii (a ++ X) = digit_of_value v :: to_ascii X.
Proof.
  intros (cp & Hc & Hv). unfold to_ascii.
  pose proof (char_at_app a cp X Hc) as Hx.
  destruct a as [|b a]; [discriminate Hc|].
  cbn [app to_ascii_from]. cbn [app] in Hx. rewrite Hx.
  cbn [List.length Nat.sub]. rewrite Nat.sub_0_r, to_ascii_skip.
  f_equal. unfold ascii_of_char.
  destruct (char_at_whole _ _ Hc) as [(b' & E & Hb & ->)|[Hge _]].
  - injection E as <- ->.
    destruct (decimal_value_below_128 _ _ Hv) as [_ ->].
    { apply in_range_spec in Hb. lia. }
    apply in_range_spec in Hb.
    destruct (Z.ltb_spec (code b) 128); [|lia].
    unfold digit_of_value. replace (48 + (code b - 48)) with (code b) by lia.
    unfold code. rewrite N2Z.id. symmetry. apply ascii_N_embedding.
  - destruct (Z.ltb_spec cp 128); [lia|].
    rewrite (decimal_not_space _ _ Hv), Hv. reflexivity.
Qed.

Lemma digit_pair_py_int (g : str) (v : Z) :
  digit_pair g v -> py_int g = Some v /\ 0 <= v <= 99.
Proof.
  intros (a & b & va & vb & Ha & Hb & -> & ->).
  assert (Ra : 0 <= va <= 9).
  { destruct Ha as (cp & _ & H). exact (decimal_value_range _ _ H). }
  assert (Rb : 0 <= vb <= 9).
  { destruct Hb as (cp & _ & H). exact (decimal_value_range _ _ H). }
  split; [|lia]. unfold py_int.
  rewrite (to_ascii_digit a va _ Ha).
  rewrite <- (app_nil_r b). rewrite (to_ascii_digit b vb [] Hb).
  destruct (digit_of_value_spec va Ra) as [Da Va].
  destruct (digit_of_value_spec vb Rb) as [Db Vb].
  rewrite long_two_digits.
  - cbn [group_val]. rewrite Va, Vb. reflexivity.
  - cbn [two_digits]. rewrite Da, Db. reflexivity.
Qed.

(** *** Splitting a timecode *)

Lemma digit_char_no_colon (a : str) (v : Z) :
  digit_char a v -> forallb not_colon a = true.
Proof.
  intros (cp & Hc & Hv).
  destruct (char_at_whole _ _ Hc) as [(b & -> & Hb & ->)|[_ Hall]].
  - destruct (decimal_value_below_128 _ _ Hv) as [Hr _].
    { apply in_range_spec in Hb. lia. }
    cbn [forallb]. unfold not_colon.
    rewrite (eqb_code b ":") by (change (code ":") with 58; lia). reflexivity.
  - rewrite forallb_forall in *. intros c Hin. specialize (Hall c Hin).
    apply Z.leb_le in Hall. unfold not_colon.
    rewrite (eqb_code c ":") by (change (code ":") with 58; lia). reflexivity.
Qed.

Lemma digit_pair_no_colon (g : str) (v : Z) :
  digit_pair g v -> forallb not_colon g = true.
Proof.
  intros (a & b & va & vb & Ha & Hb & -> & _).
  rewrite forallb_app, (digit_char_no_colon a va Ha), (digit_char_no_colon b vb Hb).
  reflexivity.
Qed.

Lemma split_field (g X : str) :
  forallb not_colon g = true ->
  split ":" (g ++ ":" :: X) = g :: split ":" X.
Proof.
  induction g as [|c g IH]; intros H.
  - reflexivity.
  - cbn [forallb] in H. apply andb_true_iff in H. destruct H as [Hc Hg].
    unfold not_colon in Hc. apply negb_true_iff in Hc.
    cbn [app split]. rewrite Hc, (IH Hg). reflexivity.
Qed.

Lemma split_last_field (g : str) :
  forallb not_colon g = true -> split ":" g = [g].
Proof.
  induction g as [|c g IH]; intros H.
  - reflexivity.
  - cbn [forallb] in H. apply andb_true_iff in H. destruct H as [Hc Hg].
    unfold not_colon in Hc. apply negb_true_iff in Hc.
    cbn [split]. rewrite Hc, (IH Hg). reflexivity.
Qed.

(** A timecode of the pattern parses, to the frame count of its four
    groups, which is not negative. *)
Lemma timecode_text_parses (tc : str) :
  timecode_text tc -> exists n, timecode_to_frames tc = Ok n /\ 0 <= n.
Proof.
  intros (h & m & s & f & vh & vm & vs & vf & Hh & Hm & Hs & Hf & ->).
  exists ((vh * 3600 + vm * 60 + vs) * 30 + vf). split.
  - apply four_ints_frames. exists h, m, s, f. split.
    + unfold hhmmssff. cbn [app].
      rewrite (split_field h _ (digit_pair_no_colon h vh Hh)),
        (split_field m _ (digit_pair_no_colon m vm Hm)),
        (split_field s _ (digit_pair_no_colon s vs Hs)),
        (split_last_field f (digit_pair_no_colon f vf Hf)).
      reflexivity.
    + repeat split; apply digit_pair_py_int; assumption.
  - pose proof (proj2 (digit_pair_py_int h vh Hh)).
    pose proof (proj2 (digit_pair_py_int m vm Hm)).
    pose proof (proj2 (digit_pair_py_int s vs Hs)).
    pose proof (proj2 (digit_pair_py_int f vf Hf)). lia.
Qed.

(** A well-formed timecode, in ASCII digits, is one of the pattern. *)
Lemma ascii_digit_char (c : ascii) : is_digit c = true -> digit_char [c] (dval c).
Proof.
  intros H. exists (code c). split.
  - apply char_at_plain. apply digit_plain. exact H.
  - apply decimal_value_ascii. apply is_digit_range. exact H.
Qed.

Lemma two_digits_pair (g : str) : two_digits g = true -> digit_pair g (group_val g).
Proof.
  intros H. destruct (two_digits_inv g H) as (a & b & -> & Ha & Hb).
  exists [a], [b], (dval a), (dval b).
  split; [apply ascii_digit_char; exact Ha|].
  split; [apply ascii_digit_char; exact Hb|]. split; reflexivity.
Qed.

Lemma well_formed_timecode_text (tc : str) : well_formed_tc tc -> timecode_text tc.
Proof.
  intros (h & m & s & f & Hh & Hm & Hs & Hf & ->).
  exists h, m, s, f, (group_val h), (group_val m), (group_val s), (group_val f).
  repeat split; try (apply two_digits_pair; assumption).
Qed.

(** *** The timecode of the pattern *)

Lemma match_d_spec (s a rest : str) :
  match_d s = Some (a, rest) <-> (exists v, digit_char a v) /\ s = a ++ rest.
Proof.
  unfold match_d. split.
  - destruct (char_at s) as [[cp n]|] eqn:E; [|discriminate].
    destruct (decimal_value cp) as [v|] eqn:Ev; [|discriminate].
    intros H. injection H as <- <-.
    destruct (char_at_firstn s cp n E) as [Hc Hl].
    split; [|symmetry; apply firstn_skipn].
    exists v, cp. rewrite Hl. split; assumption.
  - intros [(v & cp & Hc & Hv) ->].
    rewrite (char_at_app a cp rest Hc), Hv.
    rewrite firstn_app, Nat.sub_diag, firstn_all, firstn_O, app_nil_r.
    rewrite skipn_app, Nat.sub_diag, skipn_all. reflexivity.
Qed.

Lemma match_d2_spec (s g rest : str) :
  match_d2 s = Some (g, rest) <-> (exists v, digit_pair g v) /\ s = g ++ rest.
Proof.
  unfold match_d2. split.
  - destruct (match_d s) as [[a s1]|] eqn:E1; [|discriminate].
    destruct (match_d s1) as [[b s2]|] eqn:E2; [|discriminate].
    intros H. injection H as <- <-.
    apply match_d_spec in E1, E2.
    destruct E1 as [[va Ha] ->]. destruct E2 as [[vb Hb] ->].
    split; [|rewrite app_assoc; reflexivity].
    exists (10 * va + vb), a, b, va, vb. repeat split; assumption.
  - intros [(v & a & b & va & vb & Ha & Hb & -> & _) ->].
    rewrite <- app_assoc.
    rewrite (proj2 (match_d_spec (a ++ b ++ rest) a (b ++ rest))
               (conj (ex_intro _ va Ha) eq_refl)).
    rewrite (proj2 (match_d_spec (b ++ rest) b rest)
               (conj (ex_intro _ vb Hb) eq_refl)).
    reflexivity.
Qed.

Lemma match_lit_colon (X : str) : match_lit [":"] (":" :: X) = Some X.
Proof. reflexivity. Qed.

Ltac flatten_app := repeat first [rewrite <- app_assoc | progress cbn [app]].

Lemma match_tc_spec (s b rest : str) :
  match_tc s = Some (b, rest) <-> timecode_text b /\ s = b ++ rest.
Proof.
  unfold match_tc. split.
  - destruct (match_d2 s) as [[h s1]|] eqn:D1; [|discriminate].
    destruct (match_lit [":"] s1) as [s2|] eqn:L1; [|discriminate].
    destruct (match_d2 s2) as [[m s3]|] eqn:D2; [|discriminate].
    destruct (match_lit [":"] s3) as [s4|] eqn:L2; [|discriminate].
    destruct (match_d2 s4) as [[sec s5]|] eqn:D3; [|discriminate].
    destruct (match_lit [":"] s5) as [s6|] eqn:L3; [|discriminate].
    destruct (match_d2 s6) as [[f s7]|] eqn:D4; [|discriminate].
    intros H. injection H as <- <-.
    apply match_d2_spec in D1, D2, D3, D4. apply match_lit_spec in L1, L2, L3.
    destruct D1 as [[vh Hh] ->]. destruct D2 as [[vm Hm] ->].
    destruct D3 as [[vs Hs] ->]. destruct D4 as [[vf Hf] ->]. subst.
    split.
    + exists h, m, sec, f, vh, vm, vs, vf. repeat split; assumption.
    + flatten_app. reflexivity.
  - intros [(h & m & sec & f & vh & vm & vs & vf & Hh & Hm & Hs & Hf & ->) ->].
    unfold hhmmssff. flatten_app.
    rewrite (proj2 (match_d2_spec _ h _) (conj (ex_intro _ vh Hh) eq_refl)).
    rewrite match_lit_colon.
    rewrite (proj2 (match_d2_spec _ m _) (conj (ex_intro _ vm Hm) eq_refl)).
    rewrite match_lit_colon.
    rewrite (proj2 (match_d2_spec _ sec _) (conj (ex_intro _ vs Hs) eq_refl)).
    rewrite match_lit_colon.
    rewrite (proj2 (match_d2_spec _ f _) (conj (ex_intro _ vf Hf) eq_refl)).
    flatten_app. reflexivity.
Qed.

Lemma close_tag_alone (pre post : str) :
  close_tag = pre ++ close_tag ++ post -> pre = [] /\ post = [].
Proof.
  intros H. pose proof (f_equal (@List.length ascii) H) as L.
  rewrite !length_app in L.
  split; apply length_zero_iff_nil; lia.
Qed.

Lemma ends_at_next_close_tail (c : ascii) (inner : str) :
  ends_at_next_close (c :: inner) -> ends_at_next_close inner.
Proof.
  intros H pre post E. apply (H (c :: pre) post).
  rewrite <- !app_comm_cons. f_equal. exact E.
Qed.

(** The lazy star stops at the first closing tag it can reach without
    crossing a line feed. *)
Lemma match_inner_spec (s inner rest : str) :
  match_inner s = Some (inner, rest)
  <-> forallb not_nl inner = true /\ ends_at_next_close inner
      /\ s = inner ++ close_tag ++ rest.
Proof.
  split.
  - revert inner rest; induction s as [|c s IH]; intros inner rest H.
    + simpl in H. discriminate.
    + cbn [match_inner] in H.
      destruct (match_lit close_tag (c :: s)) as [r|] eqn:E.
      * inversion H; subst. apply match_lit_spec in E.
        split; [reflexivity|]. split; [|exact E].
        intros pre post Hpp. apply (close_tag_alone pre post). exact Hpp.
      * destruct (Ascii.eqb c nl) eqn:Hnl; [discriminate|].
        destruct (match_inner s) as [[i r]|] eqn:E2; [|discriminate].
        inversion H; subst. destruct (IH _ _ eq_refl) as (Hf & Hend & ->).
        split; [simpl; unfold not_nl at 1; rewrite Hnl; exact Hf|].
        split; [|reflexivity].
        intros [|x pre] post Hpp.
        -- exfalso. rewrite match_lit_None in E.
           apply (E (post ++ rest)).
           change (c :: i ++ close_tag ++ rest)
             with ((c :: i) ++ close_tag ++ rest).
           rewrite app_assoc.
           change (lit "</p>") with close_tag in Hpp. rewrite Hpp.
           rewrite <- !app_assoc. reflexivity.
        -- apply (Hend pre post). rewrite <- !app_comm_cons in Hpp.
           injection Hpp as _ Hpp. exact Hpp.
  - intros (Hf & Hend & ->). revert Hf Hend.
    induction inner as [|c inner IH]; intros Hf Hend.
    + cbn [app]. assert (E : match_lit close_tag (close_tag ++ rest) = Some rest)
        by (apply match_lit_spec; reflexivity).
      change (close_tag ++ rest) with ("<" :: lit "/p>" ++ rest) in *.
      cbn [match_inner]. rewrite E. reflexivity.
    + simpl in Hf. apply andb_true_iff in Hf. destruct Hf as [Hc Hf].
      cbn [app match_inner].
      assert (E : match_lit close_tag (c :: inner ++ close_tag ++ rest) = None).
      { apply match_lit_None. intros r Hr.
        change (c :: inner ++ close_tag ++ rest)
          with ((c :: inner) ++ close_tag ++ rest) in Hr.
        rewrite app_assoc in Hr. apply app_eq_app in Hr.
        destruct Hr as [l [[H1 _]|[H1 _]]].
        - assert (l = []) by (apply (Hend [] l); exact H1). subst l.
          rewrite app_nil_r in H1.
          apply (f_equal (@List.length ascii)) in H1.
          rewrite length_app in H1. simpl in H1. lia.
        - apply (f_equal (@List.length ascii)) in H1.
          rewrite !length_app in H1. simpl in H1. lia. }
      rewrite E. unfold not_nl in Hc. apply negb_true_iff in Hc. rewrite Hc.
      rewrite (IH Hf (ends_at_next_close_tail _ _ Hend)). reflexivity.
Qed.

Lemma p_element_pieces (b e inner rest : str) :
  p_element (b, e, inner) ++ rest
  = open_begin ++ b ++ open_end ++ e ++ open_close ++ inner ++ close_tag ++ rest.
Proof.
  unfold p_element, cue_start, cue_end, cue_text, open_begin, open_end,
    open_close, close_tag.
  cbn [fst snd]. rewrite <- !app_assoc. reflexivity.
Qed.

(** The pattern matches at the head of a text exactly where a cue of the
    shape begins, with an inner text free of line feeds. *)
Lemma match_p_spec (s : str) (c : cue) (rest : str) :
  match_p s = Some (c, rest) <-> cue_shape not_nl c /\ s = p_element c ++ rest.
Proof.
  split.
  - unfold match_p. intros H.
    destruct (match_lit open_begin s) as [s1|] eqn:E1; [|discriminate].
    destruct (match_tc s1) as [[b s2]|] eqn:E2; [|discriminate].
    destruct (match_lit open_end s2) as [s3|] eqn:E3; [|discriminate].
    destruct (match_tc s3) as [[e s4]|] eqn:E4; [|discriminate].
    destruct (match_lit open_close s4) as [s5|] eqn:E5; [|discriminate].
    destruct (match_inner s5) as [[inner r]|] eqn:E6; [|discriminate].
    inversion H; subst c rest. clear H.
    apply match_lit_spec in E1, E3, E5.
    apply match_tc_spec in E2, E4. apply match_inner_spec in E6.
    destruct E2 as [Hb ->]. destruct E4 as [He ->].
    destruct E6 as (Hf & Hend & ->). subst.
    split; [|rewrite p_element_pieces; reflexivity].
    repeat split; assumption.
  - intros [(Hb & He & Hf & Hend) ->]. destruct c as [[b e] inner].
    unfold cue_start, cue_end, cue_text in Hb, He, Hf, Hend.
    cbn [fst snd] in Hb, He, Hf, Hend.
    rewrite p_element_pieces. unfold match_p.
    rewrite (proj2 (match_lit_spec open_begin _ _) eq_refl).
    rewrite (proj2 (match_tc_spec _ b _) (conj Hb eq_refl)).
    rewrite (proj2 (match_lit_spec open_end _ _) eq_refl).
    rewrite (proj2 (match_tc_spec _ e _) (conj He eq_refl)).
    rewrite (proj2 (match_lit_spec open_close _ _) eq_refl).
    rewrite (proj2 (match_inner_spec _ inner rest) (conj Hf (conj Hend eq_refl))).
    reflexivity.
Qed.

Lemma match_p_None (s : str) : match_p s = None <-> ~ cue_here not_nl s.
Proof.
  split.
  - intros H (c & rest & Hc & E).
    assert (match_p s = Some (c, rest)) by (apply match_p_spec; split; assumption).
    congruence.
  - intros H. destruct (match_p s) as [[c rest]|] eqn:E; [|reflexivity].
    exfalso. apply H. apply match_p_spec in E. destruct E as [Hc E].
    exists c, rest. split; assumption.
Qed.

(** ** The scan *)

Lemma findall_hit (s : str) (c : cue) (rest : str) :
  match_p s = Some (c, rest) -> findall s = c :: findall rest.
Proof.
  intros H. destruct s as [|x s].
  - discriminate H.
  - simp findall. generalize (inspect (match_p (x :: s))).
    intros [[[q r]|] Hr].
    + assert (E : Some (q, r) = Some (c, rest)) by congruence.
      injection E as -> ->. simp findall. reflexivity.
    + congruence.
Qed.

Lemma findall_miss (x : ascii) (s : str) :
  match_p (x :: s) = None -> findall (x :: s) = findall s.
Proof.
  intros H. simp findall. generalize (inspect (match_p (x :: s))).
  intros [[[q r]|] Hr].
  - congruence.
  - simp findall. reflexivity.
Qed.

Lemma match_p_shorter (s : str) (c : cue) (rest : str) :
  match_p s = Some (c, rest) -> (List.length rest < List.length s)%nat.
Proof.
  intros H. apply match_p_spec in H. destruct H as [_ ->].
  destruct c as [[b e] inner]. rewrite p_element_pieces.
  rewrite !length_app. simpl. lia.
Qed.

(** The cues [findall] returns are those of the left-to-right scan. *)
Lemma findall_scans (s : str) : scans not_nl s (findall s).
Proof.
  remember (List.length s) as n eqn:Hn. revert s Hn.
  induction n as [n IH] using lt_wf_ind. intros s Hn.
  destruct s as [|x s].
  - simp findall. constructor.
  - destruct (match_p (x :: s)) as [[c rest]|] eqn:E.
    + rewrite (findall_hit _ _ _ E).
      pose proof (match_p_shorter _ _ _ E) as Hlen.
      apply match_p_spec in E. destruct E as [Hc E]. rewrite E.
      apply scans_cue; [exact Hc|].
      apply (IH (List.length rest)); [lia|reflexivity].
    + rewrite (findall_miss _ _ E). apply scans_skip.
      * apply match_p_None. exact E.
      * apply (IH (List.length s)); [subst n; simpl; lia|reflexivity].
Qed.

Lemma scans_findall (s : str) (cs : list cue) :
  scans not_nl s cs -> cs = findall s.
Proof.
  induction 1 as [|x s cs Hno _ IH|c rest cs Hc _ IH].
  - simp findall. reflexivity.
  - rewrite findall_miss; [exact IH|]. apply match_p_None. exact Hno.
  - rewrite (findall_hit _ c rest); [rewrite IH; reflexivity|].
    apply match_p_spec. split; [exact Hc|reflexivity].
Qed.

Lemma scans_shapes (inner_char : ascii -> bool) (s : str) (cs : list cue) :
  scans inner_char s cs -> Forall (cue_shape inner_char) cs.
Proof.
  induction 1; auto.
Qed.

Lemma scans_nil_no_cue (inner_char : ascii -> bool) (s : str) :
  scans inner_char s [] -> ~ cue_here inner_char s.
Proof.
  intros H. inversion H; subst.
  - intros (c & rest & _ & E). destruct c as [[b e] inner].
    rewrite p_element_pieces in E. discriminate E.
  - assumption.
Qed.

(** ** Cue extractor *)

Lemma extract_itt_data_Ok (file_content : str) (cues : list cue) (lang content : str) :
  extract_itt_data file_content = Ok (cues, lang, content) ->
  utf8_valid file_content = true
  /\ content = file_content /\ cues = findall file_content.
Proof.
  unfold extract_itt_data, decode_utf8.
  destruct (utf8_valid file_content); cbn [bind]; intros H; inversion H.
  repeat split.
Qed.

Lemma extract_itt_data_returns (file_content : str) :
  utf8_valid file_content = true ->
  exists lang,
    extract_itt_data file_content
    = Ok (findall file_content, lang, file_content).
Proof.
  intros H. unfold extract_itt_data, decode_utf8. rewrite H. cbn [bind].
  eexists. reflexivity.
Qed.

(** C5, as the code has it.  For every document that decodes as UTF-8,
    the extractor returns exactly the cues of the left-to-right scan for
    texts of the shape [<p begin="TC" end="TC">INNER</p>] that do not
    overlap, in document order, where each TC is four two-digit groups
    separated by colons, the digits being decimal digits of any script,
    as [\d] takes them, and INNER is the span up to the next [</p>] and
    holds no line feed.  (A [p] element whose text reaches its [</p>]
    only across a line feed is no cue.) *)
Theorem extractor_cues_exact (file_content : str) :
  utf8_valid file_content = true ->
  exists cues lang,
    extract_itt_data file_content = Ok (cues, lang, file_content)
    /\ forall cs, scans not_nl file_content cs <-> cs = cues.
Proof.
  intros H. destruct (extract_itt_data_returns file_content H) as [lang E].
  exists (findall file_content), lang. split; [exact E|].
  intros cs. split.
  - apply scans_findall.
  - intros ->. apply findall_scans.
Qed.

Lemma extractor_cues_exact_witness :
  exists cues lang,
    extract_itt_data sample_document = Ok (cues, lang, sample_document)
    /\ scans not_nl sample_document
         [ mk_cue "00:00:00:00" "00:00:02:00" "Bonjour";
           mk_cue "00:00:02:00" "00:00:04:10" "Au <b>revoir" ].
Proof.
  destruct (extractor_cues_exact sample_document eq_refl)
    as (cues & lang & E & Hiff).
  exists cues, lang. split; [exact E|].
  apply Hiff. apply extract_itt_data_Ok in E. destruct E as (_ & _ & ->).
  vm_compute. reflexivity.
Defined.

(** C5 as stated fails on a cue whose text runs over two lines: the
    document has the shape of C5 with the text up to the next closing tag
    as INNER, so the scan of C5 finds this cue and cannot come back empty,
    but the extractor returns no cue. *)
Lemma extractor_misses_multiline_cue :
  extract_itt_data multiline_document
  = Ok ([], lit "Unknown", multiline_document)
  /\ scans any_char multiline_document [multiline_cue]
  /\ ~ scans any_char multiline_document [].
Proof.
  assert (Hshape : cue_shape any_char multiline_cue).
  { split; [|split; [|split]].
    - apply well_formed_timecode_text.
      exists (lit "00"), (lit "00"), (lit "00"), (lit "00").
      repeat split; reflexivity.
    - apply well_formed_timecode_text.
      exists (lit "00"), (lit "00"), (lit "01"), (lit "00").
      repeat split; reflexivity.
    - reflexivity.
    - intros pre post E. unfold multiline_cue, cue_text in E.
      cbn [snd] in E. cbn in E.
      destruct pre as [|x1 pre]; [discriminate E|injection E as _ E].
      destruct pre as [|x2 pre]; [discriminate E|injection E as _ E].
      destruct pre as [|x3 pre]; [discriminate E|injection E as _ E].
      destruct pre as [|x4 pre];
        [injection E as E; symmetry; exact E|injection E as _ E].
      destruct pre as [|x5 pre]; [discriminate E|injection E as _ E].
      destruct pre as [|x6 pre]; [discriminate E|injection E as _ E].
      destruct pre as [|x7 pre]; [discriminate E|injection E as _ E].
      destruct pre as [|x8 pre]; discriminate E. }
  split; [vm_compute; reflexivity|]. split.
  - rewrite <- (app_nil_r multiline_document). unfold multiline_document.
    apply scans_cue; [exact Hshape|constructor].
  - intros H. apply scans_nil_no_cue in H. apply H.
    exists multiline_cue, []. split; [exact Hshape|].
    unfold multiline_document. rewrite app_nil_r. reflexivity.
Qed.

(** Decimal digits of another script make a cue, and its timecodes
    parse; white space outside ASCII around a literal is dropped. *)
Example arabic_indic_document_cue :
  extract_itt_data arabic_indic_document
  = Ok ([arabic_indic_cue], lit "Unknown", arabic_indic_document)
  /\ timecode_to_frames (cue_start arabic_indic_cue) = Ok 0
  /\ py_int (next_line ++ lit "1") = Some 1.
Proof. repeat split; vm_compute; reflexivity. Qed.

Example sample_document_language :
  exists cues,
    extract_itt_data sample_document = Ok (cues, lit "fr-FR", sample_document).
Proof. eexists. vm_compute. reflexivity. Qed.

Lemma cue_shape_parses (inner_char : ascii -> bool) (c : cue) :
  cue_shape inner_char c -> cue_parses c.
Proof.
  intros (Hb & He & _).
  destruct (timecode_text_parses _ Hb) as (n & Hn & _).
  destruct (timecode_text_parses _ He) as (k & Hk & _).
  split; [exists n; exact Hn|exists k; exact Hk].
Qed.

Lemma findall_parses (s : str) : Forall cue_parses (findall s).
Proof.
  pose proof (scans_shapes _ _ _ (findall_scans s)) as H.
  rewrite Forall_forall in *. intros c Hc.
  apply (cue_shape_parses not_nl). apply H. exact Hc.
Qed.

(** C10.  On every input that decodes as UTF-8 the extractor returns,
    and every begin and end timecode of every cue it returns is four
    two-digit decimal groups separated by colons, the digits being
    decimal digits of any script, as [\d] takes them; the timecode
    parser succeeds on it, with a frame count that is not negative; so
    the overlap checker returns on the extracted cues, and the comparator
    returns on any two extracted cue sequences, in either role. *)
Theorem extracted_timecodes_parse (file_content : str) :
  utf8_valid file_content = true ->
  exists cues lang,
    extract_itt_data file_content = Ok (cues, lang, file_content)
    /\ Forall
         (fun c =>
            timecode_text (cue_start c) /\ timecode_text (cue_end c)
            /\ (exists n, timecode_to_frames (cue_start c) = Ok n /\ 0 <= n)
            /\ (exists n, timecode_to_frames (cue_end c) = Ok n /\ 0 <= n))
         cues
    /\ (exists b, check_timecode_overlap cues = Ok b)
    /\ (forall other cues' lang' content',
          extract_itt_data other = Ok (cues', lang', content') ->
          (exists res, compare_files cues cues' = Ok res)
          /\ (exists res, compare_files cues' cues = Ok res)).
Proof.
  intros H. destruct (extract_itt_data_returns file_content H) as [lang E].
  exists (findall file_content), lang. split; [exact E|]. split; [|split].
  - pose proof (scans_shapes _ _ _ (findall_scans file_content)) as Hs.
    rewrite Forall_forall in *. intros c Hc.
    destruct (Hs c Hc) as (Hb & He & _).
    repeat split; try assumption; apply timecode_text_parses; assumption.
  - destruct (overlap_loop_spec _ (findall_parses file_content) None)
      as (b & Hb & _).
    exists b. exact Hb.
  - intros other cues' lang' content' E'.
    apply extract_itt_data_Ok in E'. destruct E' as (_ & _ & ->).
    split.
    + destruct (compare_files_returns _ _ (findall_parses file_content)
                  (findall_parses other)) as (res & Hres & _).
      exists res. exact Hres.
    + destruct (compare_files_returns _ _ (findall_parses other)
                  (findall_parses file_content)) as (res & Hres & _).
      exists res. exact Hres.
Qed.

Lemma extracted_timecodes_parse_witness :
  exists cues b,
    cues <> []
    /\ check_timecode_overlap cues = Ok b
    /\ exists res, compare_files cues sample_reference = Ok res.
Proof.
  destruct (extracted_timecodes_parse sample_document eq_refl)
    as (cues & lang & E & Hall & [b Hb] & Hcmp).
  exists cues, b. split; [|split; [exact Hb|]].
  - apply extract_itt_data_Ok in E. destruct E as (_ & _ & ->).
    vm_compute. discriminate.
  - pose proof (compare_files_returns cues sample_reference) as Hr.
    destruct Hr as (res & Hres & _).
    + rewrite Forall_forall in *. intros c Hc.
      destruct (Hall c Hc) as (_ & _ & [n [Hn _]] & [k [Hk _]]).
      split; [exists n; exact Hn|exists k; exact Hk].
    + exact sample_reference_parses.
    + exists res. exact Hres.
Defined.

(** * Further properties *)

(** ** Overlap checker: where the scan stops *)

Lemma overlap_loop_app_true (l1 l2 : list cue) :
  forall prev_end,
    overlap_loop prev_end l1 = Ok true ->
    overlap_loop prev_end (l1 ++ l2) = Ok true.
Proof.
  induction l1 as [|[[start end_] text] l1 IH]; intros prev_end H.
  - discriminate H.
  - cbn [app overlap_loop] in *.
    destruct (timecode_to_frames start) as [sf|e]; [|discriminate H].
    destruct (timecode_to_frames end_) as [ef|e]; [|discriminate H].
    cbn [bind] in *.
    destruct prev_end as [p|]; [destruct (sf <? p); [reflexivity|]|];
      apply IH; exact H.
Qed.

Lemma overlap_loop_app_raise (l1 l2 : list cue) (e : exn) :
  forall prev_end,
    overlap_loop prev_end l1 = Raise e ->
    overlap_loop prev_end (l1 ++ l2) = Raise e.
Proof.
  induction l1 as [|[[start end_] text] l1 IH]; intros prev_end H.
  - discriminate H.
  - cbn [app overlap_loop] in *.
    destruct (timecode_to_frames start) as [sf|e1]; [|exact H].
    destruct (timecode_to_frames end_) as [ef|e2]; [|exact H].
    cbn [bind] in *.
    destruct prev_end as [p|]; [destruct (sf <? p); [discriminate H|]|];
      apply IH; exact H.
Qed.

(** X1.  The overlap checker decides on the shortest prefix that settles
    the answer: once a prefix of the cues yields true, or raises, the
    whole sequence does the same, whatever follows, cues with malformed
    timecodes included. *)
Theorem overlap_decided_by_prefix (l1 l2 : list cue) :
  (check_timecode_overlap l1 = Ok true ->
   check_timecode_overlap (l1 ++ l2) = Ok true)
  /\ (forall e, check_timecode_overlap l1 = Raise e ->
                check_timecode_overlap (l1 ++ l2) = Raise e).
Proof.
  split.
  - apply overlap_loop_app_true.
  - intros e. apply overlap_loop_app_raise.
Qed.

Lemma overlap_decided_by_prefix_witness :
  check_timecode_overlap
    (sample_overlapping ++ [mk_cue "not a timecode" "" ""]) = Ok true.
Proof.
  apply (proj1 (overlap_decided_by_prefix sample_overlapping _)).
  reflexivity.
Defined.

Lemma cue_parses_dec (c : cue) : cue_parses c \/ ~ cue_parses c.
Proof.
  unfold cue_parses, parses.
  destruct (timecode_to_frames (cue_start c)) as [n|e];
    destruct (timecode_to_frames (cue_end c)) as [k|e'].
  - left. split; eexists; reflexivity.
  - right. intros [_ [x Hx]]. discriminate Hx.
  - right. intros [[x Hx] _]. discriminate Hx.
  - right. intros [[x Hx] _]. discriminate Hx.
Qed.

Lemma overlap_loop_false_app (l1 l2 : list cue) :
  forall prev_end,
    overlap_loop prev_end l1 = Ok false ->
    exists prev_end', overlap_loop prev_end (l1 ++ l2) = overlap_loop prev_end' l2.
Proof.
  induction l1 as [|[[start end_] text] l1 IH]; intros prev_end H.
  - exists prev_end. reflexivity.
  - cbn [app overlap_loop] in *.
    destruct (timecode_to_frames start) as [sf|e]; [|discriminate H].
    destruct (timecode_to_frames end_) as [ef|e]; [|discriminate H].
    cbn [bind] in *.
    destruct prev_end as [p|]; [destruct (sf <? p); [discriminate H|]|];
      apply IH; exact H.
Qed.

(** X2.  A cue one of whose two timecodes does not parse makes the
    overlap checker raise [ValueError] when no overlap comes before it:
    both timecodes of a cue are parsed before its start is compared. *)
Theorem overlap_raises_on_malformed_cue (l1 l2 : list cue) (c : cue) :
  check_timecode_overlap l1 = Ok false ->
  ~ cue_parses c ->
  check_timecode_overlap (l1 ++ c :: l2) = Raise ValueError.
Proof.
  intros H Hc. unfold check_timecode_overlap in *.
  destruct (overlap_loop_false_app l1 (c :: l2) None H) as [prev E].
  rewrite E. destruct c as [[start end_] text]. cbn [overlap_loop].
  unfold cue_parses, parses, cue_start, cue_end in Hc. cbn [fst snd] in Hc.
  destruct (timecode_to_frames start) as [sf|e] eqn:Es.
  - destruct (timecode_to_frames end_) as [ef|e] eqn:Ee.
    + exfalso. apply Hc. split; eexists; reflexivity.
    + cbn [bind]. apply timecode_to_frames_exn in Ee. rewrite Ee. reflexivity.
  - cbn [bind]. apply timecode_to_frames_exn in Es. rewrite Es. reflexivity.
Qed.

Lemma overlap_raises_on_malformed_cue_witness :
  check_timecode_overlap
    (sample_abutting ++ [mk_cue "00:00:01:00" "00:00:0x:00" "c"])
  = Raise ValueError.
Proof.
  apply overlap_raises_on_malformed_cue.
  - reflexivity.
  - intros [_ [n Hn]]. vm_compute in Hn. discriminate Hn.
Defined.

Lemma no_overlap_adjacent (cues : list cue) :
  Forall cue_parses cues ->
  check_timecode_overlap cues = Ok false ->
  forall i prev cur,
    nth_error cues i = Some prev -> nth_error cues (S i) = Some cur ->
    end_frames prev <= start_frames cur.
Proof.
  intros Hall H i prev cur Hp Hc.
  destruct (overlap_loop_spec cues Hall None) as (b & Hb & Hiff).
  unfold check_timecode_overlap in H. rewrite H in Hb.
  injection Hb as <-.
  destruct (Z.le_gt_cases (end_frames prev) (start_frames cur)) as [Hle|Hgt];
    [exact Hle|].
  exfalso. assert (false = true); [|discriminate].
  apply Hiff. right. exists i, prev, cur. repeat split; [assumption..|lia].
Qed.

(** X3.  When the overlap checker returns false on cues whose timecodes
    parse and none of which ends before it starts, no two cues of the
    sequence overlap, adjacent or not: every cue ends before or when any
    later one starts. *)
Theorem no_overlap_is_global (cues : list cue) :
  Forall cue_parses cues ->
  Forall forward cues ->
  check_timecode_overlap cues = Ok false ->
  forall i j ci cj,
    (i < j)%nat ->
    nth_error cues i = Some ci -> nth_error cues j = Some cj ->
    end_frames ci <= start_frames cj.
Proof.
  intros Hall Hfw H i j ci cj Hij Hi.
  pose proof (no_overlap_adjacent cues Hall H) as Hadj.
  revert cj. induction Hij as [|j Hij IH]; intros cj Hj.
  - exact (Hadj i ci cj Hi Hj).
  - destruct (nth_error cues j) as [ck|] eqn:Hk.
    + specialize (IH ck eq_refl).
      pose proof (Hadj j ck cj Hk Hj) as H1.
      assert (Hf : forward ck).
      { rewrite Forall_forall in Hfw. apply Hfw.
        eapply nth_error_In. exact Hk. }
      unfold forward in Hf. lia.
    + exfalso. apply nth_error_None in Hk.
      assert (S j < List.length cues)%nat
        by (apply nth_error_Some; rewrite Hj; discriminate).
      lia.
Qed.

Lemma no_overlap_is_global_witness :
  end_frames (mk_cue "00:00:00:00" "00:00:02:00" "Hello")
  <= start_frames (mk_cue "00:00:04:00" "00:00:06:00" "Bye").
Proof.
  apply (no_overlap_is_global sample_reference sample_reference_parses)
    with (i := 0%nat) (j := 2%nat).
  - repeat constructor; vm_compute; discriminate.
  - reflexivity.
  - lia.
  - reflexivity.
  - reflexivity.
Defined.

(** ** Comparator: what it reads, when it raises *)

Lemma drift_readable (r t : cue) :
  readable r t ->
  drift (cue_start r) (cue_end r) (cue_start t) (cue_end t) = Ok (flagged r t).
Proof.
  intros (Hrs & Hts & Hends). unfold drift, flagged, start_frames, end_frames in *.
  rewrite (parses_frames _ Hrs), (parses_frames _ Hts). cbn [bind].
  destruct (Z.ltb_spec 3 (Z.abs (frames (cue_start r) - frames (cue_start t))))
    as [Hlt|Hge].
  - reflexivity.
  - destruct Hends as [Hlt|[Hre Hte]]; [lia|].
    rewrite (parses_frames _ Hre), (parses_frames _ Hte). reflexivity.
Qed.

Lemma drift_unreadable (r t : cue) :
  ~ readable r t ->
  drift (cue_start r) (cue_end r) (cue_start t) (cue_end t) = Raise ValueError.
Proof.
  intros Hn. unfold drift.
  destruct (timecode_to_frames (cue_start r)) as [es|e] eqn:Ers; cbn [bind].
  2:{ apply timecode_to_frames_exn in Ers. rewrite Ers. reflexivity. }
  destruct (timecode_to_frames (cue_start t)) as [ss|e] eqn:Ets; cbn [bind].
  2:{ apply timecode_to_frames_exn in Ets. rewrite Ets. reflexivity. }
  assert (Hs : start_frames r = es /\ start_frames t = ss).
  { unfold start_frames, frames. rewrite Ers, Ets. split; reflexivity. }
  destruct Hs as [Hs1 Hs2].
  destruct (Z.ltb_spec 3 (Z.abs (es - ss))) as [Hlt|Hge].
  { exfalso. apply Hn. split; [exists es; exact Ers|].
    split; [exists ss; exact Ets|]. left. rewrite Hs1, Hs2. exact Hlt. }
  destruct (timecode_to_frames (cue_end r)) as [ee|e] eqn:Ere; cbn [bind].
  2:{ apply timecode_to_frames_exn in Ere. rewrite Ere. reflexivity. }
  destruct (timecode_to_frames (cue_end t)) as [se|e] eqn:Ete; cbn [bind].
  2:{ apply timecode_to_frames_exn in Ete. rewrite Ete. reflexivity. }
  exfalso. apply Hn. split; [exists es; exact Ers|].
  split; [exists ss; exact Ets|]. right.
  split; [exists ee; exact Ere|exists se; exact Ete].
Qed.

Lemma readable_dec (r t : cue) : readable r t \/ ~ readable r t.
Proof.
  unfold readable, parses, start_frames, frames.
  destruct (timecode_to_frames (cue_start r)) as [es|e].
  2:{ right. intros [[n Hn] _]. discriminate Hn. }
  destruct (timecode_to_frames (cue_start t)) as [ss|e].
  2:{ right. intros (_ & [n Hn] & _). discriminate Hn. }
  destruct (Z.lt_ge_cases 3 (Z.abs (es - ss))) as [Hlt|Hge].
  { left. split; [eexists; reflexivity|]. split; [eexists; reflexivity|].
    left. exact Hlt. }
  destruct (timecode_to_frames (cue_end r)) as [ee|e].
  2:{ right. intros (_ & _ & [Hlt|[[n Hn] _]]); [lia|discriminate Hn]. }
  destruct (timecode_to_frames (cue_end t)) as [se|e].
  2:{ right. intros (_ & _ & [Hlt|[_ [n Hn]]]); [lia|discriminate Hn]. }
  left. split; [eexists; reflexivity|]. split; [eexists; reflexivity|].
  right. split; eexists; reflexivity.
Qed.

(** The loop on the aligned pairs that are left: it returns when they are
    all readable and raises [ValueError] otherwise. *)
Lemma compare_loop_readable (R T : list cue) :
  forall (i : nat) (acc : list issue),
    (Forall (fun p => readable (fst p) (snd p)) (combine R (skipn i T)) ->
     compare_loop i R T acc = Ok (acc ++ drifting_pairs R (skipn i T)))
    /\ (~ Forall (fun p => readable (fst p) (snd p)) (combine R (skipn i T)) ->
        compare_loop i R T acc = Raise ValueError).
Proof.
  induction R as [|r R IH]; intros i acc.
  - split.
    + intros _. simpl. rewrite app_nil_r. reflexivity.
    + intros Hn. exfalso. apply Hn. constructor.
  - destruct r as [[rs re] rt]. cbn [compare_loop].
    destruct (Nat.leb_spec (List.length T) i) as [Hi|Hi].
    + rewrite skipn_all2 by exact Hi. rewrite combine_nil. split.
      * intros _. unfold drifting_pairs. rewrite combine_nil. simpl.
        rewrite app_nil_r. reflexivity.
      * intros Hn. exfalso. apply Hn. constructor.
    + destruct (nth_error T i) as [t|] eqn:Ht.
      2:{ apply nth_error_None in Ht. lia. }
      rewrite (skipn_nth_error _ _ _ Ht). cbn [combine].
      destruct (readable_dec (rs, re, rt) t) as [Hr|Hr].
      * pose proof (drift_readable _ _ Hr) as Hd.
        destruct t as [[ts te] tt]. unfold cue_start, cue_end in Hd.
        cbn [fst snd] in Hd. rewrite Hd. cbn [bind].
        destruct (IH (S i)
                    (if flagged (rs, re, rt) (ts, te, tt)
                     then acc ++ [(rt, tt)] else acc)) as [IHok IHbad].
        split.
        -- intros Hall. inversion Hall; subst. rewrite IHok by assumption.
           rewrite drifting_pairs_cons. unfold cue_text. cbn [fst snd].
           destruct (flagged (rs, re, rt) (ts, te, tt));
             [rewrite <- app_assoc|]; reflexivity.
        -- intros Hn. apply IHbad. intros Hall. apply Hn.
           constructor; assumption.
      * pose proof (drift_unreadable _ _ Hr) as Hd.
        destruct t as [[ts te] tt]. unfold cue_start, cue_end in Hd.
        cbn [fst snd] in Hd. rewrite Hd. cbn [bind]. split.
        -- intros Hall. inversion Hall; subst. contradiction.
        -- reflexivity.
Qed.

Lemma all_readable_dec (l : list (cue * cue)) :
  Forall (fun p => readable (fst p) (snd p)) l
  \/ ~ Forall (fun p => readable (fst p) (snd p)) l.
Proof.
  induction l as [|p l IHl].
  - left. constructor.
  - destruct (readable_dec (fst p) (snd p)) as [Hp|Hp].
    + destruct IHl as [Hl|Hl].
      * left. constructor; assumption.
      * right. intros Hall. inversion Hall; contradiction.
    + right. intros Hall. inversion Hall; contradiction.
Qed.

Lemma compare_loop_Ok_drifting (R T : list cue) (iss : list issue) :
  compare_loop 0 R T [] = Ok iss -> iss = drifting_pairs R T.
Proof.
  intros E. destruct (compare_loop_readable R T 0 []) as [Hok Hbad].
  destruct (all_readable_dec (combine R (skipn 0 T))) as [Hall|Hn].
  - specialize (Hok Hall). cbn [app skipn] in Hok. congruence.
  - specialize (Hbad Hn). congruence.
Qed.

(** X4.  The comparator reads the aligned pairs only, and of a pair the
    ends only when the starts are within three frames: it returns, with
    the drifting pairs as its timecode issues, exactly when every aligned
    pair is readable in this sense, and raises [ValueError] otherwise.
    The cues beyond the shorter sequence are never parsed; with an empty
    sequence on either side it returns whatever the other one holds. *)
Theorem comparator_returns_iff_readable (R T : list cue) :
  (Forall (fun p => readable (fst p) (snd p)) (combine R T) ->
   exists res,
     compare_files R T = Ok res
     /\ timecode_issues res = drifting_pairs R T)
  /\ (~ Forall (fun p => readable (fst p) (snd p)) (combine R T) ->
      compare_files R T = Raise ValueError)
  /\ (exists res, compare_files [] T = Ok res)
  /\ (exists res, compare_files R [] = Ok res).
Proof.
  destruct (compare_loop_readable R T 0 []) as [Hok Hbad].
  cbn [skipn] in Hok, Hbad.
  split; [|split; [|split]].
  - intros Hall. unfold compare_files. rewrite (Hok Hall). cbn [bind app].
    eexists. split; reflexivity.
  - intros Hn. unfold compare_files. rewrite (Hbad Hn). reflexivity.
  - eexists. reflexivity.
  - unfold compare_files.
    destruct (compare_loop_readable R [] 0 []) as [Hok' _].
    rewrite Hok' by (cbn [skipn]; rewrite combine_nil; constructor).
    cbn [bind]. eexists. reflexivity.
Qed.

Lemma comparator_returns_iff_readable_witness :
  exists res,
    compare_files
      [mk_cue "00:00:00:00" "no end" "a"; mk_cue "junk" "junk" "b"]
      [mk_cue "00:00:01:00" "neither" "x"] = Ok res
    /\ timecode_issues res = [(lit "a", lit "x")].
Proof.
  destruct (comparator_returns_iff_readable
              [mk_cue "00:00:00:00" "no end" "a"; mk_cue "junk" "junk" "b"]
              [mk_cue "00:00:01:00" "neither" "x"]) as [Hok _].
  destruct Hok as (res & Hres & Hiss).
  - constructor; [|constructor].
    split; [eexists; reflexivity|]. split; [eexists; reflexivity|].
    left. vm_compute. reflexivity.
  - exists res. split; [exact Hres|]. rewrite Hiss. reflexivity.
Defined.

(** X5.  The comparator never raises anything but [ValueError]: the
    indexing of the translated sequence is guarded by the length test. *)
Theorem comparator_raises_only_ValueError (R T : list cue) (e : exn) :
  compare_files R T = Raise e -> e = ValueError.
Proof.
  unfold compare_files.
  destruct (compare_loop_readable R T 0 []) as [Hok Hbad].
  destruct (all_readable_dec (combine R (skipn 0 T))) as [Hall|Hn].
  - rewrite (Hok Hall). cbn [bind]. discriminate.
  - rewrite (Hbad Hn). cbn [bind]. intros H. inversion H. reflexivity.
Qed.

Lemma comparator_raises_only_ValueError_witness :
  compare_files [mk_cue "junk" "junk" "b"] [mk_cue "00:00:01:00" "00:00:02:00" "x"]
  = Raise ValueError.
Proof.
  destruct (compare_files [mk_cue "junk" "junk" "b"]
              [mk_cue "00:00:01:00" "00:00:02:00" "x"]) as [res|e] eqn:E.
  - vm_compute in E. discriminate E.
  - rewrite (comparator_raises_only_ValueError _ _ e E). reflexivity.
Defined.

(** ** Comparator: identity, exchange of roles, partition *)

Lemma flagged_refl (r : cue) : flagged r r = false.
Proof.
  unfold flagged. rewrite !Z.sub_diag. reflexivity.
Qed.

Lemma flagged_sym (r t : cue) : flagged r t = flagged t r.
Proof.
  unfold flagged.
  replace (Z.abs (start_frames t - start_frames r))
    with (Z.abs (start_frames r - start_frames t)) by lia.
  replace (Z.abs (end_frames t - end_frames r))
    with (Z.abs (end_frames r - end_frames t)) by lia.
  reflexivity.
Qed.

Lemma drifting_pairs_same_timing (R T : list cue) :
  map timing R = map timing T -> drifting_pairs R T = [].
Proof.
  revert T; induction R as [|r R IH]; intros [|t T] H; try reflexivity;
    try discriminate H.
  cbn [map] in H. injection H as Hs He Hrest.
  rewrite drifting_pairs_cons, (IH T Hrest), app_nil_r.
  assert (E : flagged r t = flagged r r).
  { unfold flagged, start_frames, end_frames. rewrite Hs, He. reflexivity. }
  rewrite E, flagged_refl. reflexivity.
Qed.

(** X6.  A cue sequence whose timecodes parse compares clean with any
    sequence of the same begin and end texts, so with itself: the line
    counts match and there are no timecode issues, no extra and no
    missing lines. *)
Theorem comparator_same_timing_clean (R T : list cue) :
  Forall cue_parses R -> Forall cue_parses T ->
  map timing R = map timing T ->
  compare_files R T
  = Ok {| line_count_match := true; timecode_issues := [];
          extra_lines := []; missing_lines := [] |}.
Proof.
  intros HR HT Htim. unfold compare_files.
  rewrite (compare_loop_spec R T HR HT). cbn [bind app skipn].
  rewrite (drifting_pairs_same_timing R T Htim).
  assert (Hlen : List.length R = List.length T).
  { rewrite <- (length_map timing R), Htim, length_map. reflexivity. }
  rewrite Hlen, Nat.eqb_refl, Nat.ltb_irrefl. reflexivity.
Qed.

Lemma comparator_same_timing_clean_witness :
  compare_files sample_reference sample_reference
  = Ok {| line_count_match := true; timecode_issues := [];
          extra_lines := []; missing_lines := [] |}.
Proof.
  apply comparator_same_timing_clean.
  - exact sample_reference_parses.
  - exact sample_reference_parses.
  - reflexivity.
Defined.

Lemma drifting_pairs_swap (R T : list cue) :
  drifting_pairs T R = map swap_issue (drifting_pairs R T).
Proof.
  revert T; induction R as [|r R IH]; intros [|t T]; try reflexivity.
  rewrite !drifting_pairs_cons, map_app, IH, (flagged_sym t r).
  destruct (flagged r t); reflexivity.
Qed.

(** X7.  Exchanging the reference and the translation exchanges extra
    and missing lines and turns each issue pair round; the line count
    verdict is the same. *)
Theorem comparator_roles_exchanged (R T : list cue) (res : ComparisonResult) :
  Forall cue_parses R -> Forall cue_parses T ->
  compare_files R T = Ok res ->
  compare_files T R
  = Ok {| line_count_match := line_count_match res;
          timecode_issues := map swap_issue (timecode_issues res);
          extra_lines := missing_lines res;
          missing_lines := extra_lines res |}.
Proof.
  intros HR HT H. unfold compare_files in *.
  rewrite (compare_loop_spec R T HR HT) in H.
  rewrite (compare_loop_spec T R HT HR). cbn [bind app skipn] in *.
  injection H as <-. cbn [line_count_match timecode_issues extra_lines missing_lines].
  rewrite drifting_pairs_swap, (Nat.eqb_sym (List.length T)). reflexivity.
Qed.

Lemma comparator_roles_exchanged_witness :
  exists res,
    compare_files sample_translated sample_reference = Ok res
    /\ timecode_issues res = [(lit "Adios", lit "Bye")]
    /\ List.length (missing_lines res) = 2%nat.
Proof.
  destruct (compare_files sample_reference sample_translated) as [res|e] eqn:E.
  - eexists. split.
    + apply (comparator_roles_exchanged sample_reference sample_translated res
               sample_reference_parses sample_translated_parses E).
    + vm_compute in E. injection E as <-. split; reflexivity.
  - vm_compute in E. discriminate E.
Defined.

(** X8.  Whenever the comparator returns, every cue is either in the
    overlap region or reported: the translation is its first min(m, n)
    cues followed by the extra lines, the reference its first min(m, n)
    cues followed by the missing lines; there are n - m extra lines,
    m - n missing lines and at most min(m, n) timecode issues. *)
Theorem comparator_partition (R T : list cue) (res : ComparisonResult) :
  compare_files R T = Ok res ->
  let k := Nat.min (List.length R) (List.length T) in
  T = firstn k T ++ extra_lines res
  /\ R = firstn k R ++ missing_lines res
  /\ List.length (extra_lines res) = (List.length T - List.length R)%nat
  /\ List.length (missing_lines res) = (List.length R - List.length T)%nat
  /\ (List.length (timecode_issues res) <= k)%nat.
Proof.
  intros H k. pose proof (compare_files_Ok R T res H) as (_ & He & Hm).
  assert (Hkdef : k = Nat.min (List.length R) (List.length T)) by reflexivity.
  assert (Hiss : (List.length (timecode_issues res) <= k)%nat).
  { unfold compare_files in H.
    destruct (compare_loop 0 R T []) as [iss|e] eqn:E; [|discriminate H].
    cbn [bind] in H. injection H as <-. cbn [timecode_issues].
    pose proof (compare_loop_Ok_drifting R T iss E) as Hiss.
    rewrite Hiss. unfold drifting_pairs.
    rewrite length_map. etransitivity; [apply filter_length_le|].
    rewrite length_combine. apply Nat.le_refl. }
  clearbody k.
  destruct (Nat.ltb_spec (List.length R) (List.length T)) as [H1|H1];
    destruct (Nat.ltb_spec (List.length T) (List.length R)) as [H2|H2];
    try lia; rewrite He, Hm.
  - assert (Hk : k = List.length R) by lia. rewrite Hk.
    split; [symmetry; apply firstn_skipn|].
    split; [rewrite firstn_all, app_nil_r; reflexivity|].
    split; [apply length_skipn|]. split; [simpl; lia|lia].
  - assert (Hk : k = List.length T) by lia. rewrite Hk.
    split; [rewrite firstn_all, app_nil_r; reflexivity|].
    split; [symmetry; apply firstn_skipn|].
    split; [simpl; lia|]. split; [apply length_skipn|lia].
  - assert (Hk : k = List.length T) by lia.
    assert (Hk' : k = List.length R) by lia.
    split; [rewrite Hk, firstn_all, app_nil_r; reflexivity|].
    split; [rewrite Hk', firstn_all, app_nil_r; reflexivity|].
    split; [simpl; lia|]. split; [simpl; lia|lia].
Qed.

Lemma comparator_partition_witness :
  exists res,
    compare_files sample_reference sample_translated = Ok res
    /\ sample_translated = firstn 3 sample_translated ++ extra_lines res.
Proof.
  destruct (compare_files sample_reference sample_translated) as [res|e] eqn:E.
  - exists res. split; [reflexivity|].
    exact (proj1 (comparator_partition _ _ res E)).
  - vm_compute in E. discriminate E.
Defined.

(** ** Timecode codec: distinct clock values, distinct frame counts *)

Lemma code_inj (a b : ascii) : code a = code b -> a = b.
Proof.
  unfold code. intros H. apply N2Z.inj in H.
  rewrite <- (ascii_N_embedding a), <- (ascii_N_embedding b), H. reflexivity.
Qed.

Lemma group_val_inj (g g' : str) :
  two_digits g = true -> two_digits g' = true ->
  group_val g = group_val g' -> g = g'.
Proof.
  intros H H' E.
  destruct (two_digits_inv g H) as (a & b & -> & Ha & Hb).
  destruct (two_digits_inv g' H') as (a' & b' & -> & Ha' & Hb').
  apply is_digit_range in Ha, Hb, Ha', Hb'.
  unfold group_val, dval in E.
  assert (code a = code a') by lia. assert (code b = code b') by lia.
  f_equal; [apply code_inj; assumption|].
  f_equal. apply code_inj; assumption.
Qed.

(** X9.  On well-formed timecodes whose minutes and seconds are below 60
    and whose frames are below 30, the parse is one-to-one: two such
    timecodes with the same frame count are the same text.  (Outside
    these ranges it is not: 00:00:00:30 and 00:00:01:00 both give 30.) *)
Theorem parse_injective_within_clock_range (a b : str) (n : Z) :
  well_formed_tc a -> well_formed_tc b ->
  clock_range a -> clock_range b ->
  timecode_to_frames a = Ok n -> timecode_to_frames b = Ok n ->
  a = b.
Proof.
  intros (h & m & s & f & Hh & Hm & Hs & Hf & ->)
         (h' & m' & s' & f' & Hh' & Hm' & Hs' & Hf' & ->)
         (H & M & S & F & H4 & HM & HS & HF)
         (H' & M' & S' & F' & H4' & HM' & HS' & HF') Ea Eb.
  pose proof (well_formed_four_ints h m s f Hh Hm Hs Hf) as Ha.
  pose proof (well_formed_four_ints h' m' s' f' Hh' Hm' Hs' Hf') as Hb.
  destruct (four_ints_unique _ _ _ _ _ _ _ _ _ H4 Ha) as (-> & -> & -> & ->).
  destruct (four_ints_unique _ _ _ _ _ _ _ _ _ H4' Hb) as (-> & -> & -> & ->).
  rewrite (four_ints_frames _ _ _ _ _ Ha) in Ea.
  rewrite (four_ints_frames _ _ _ _ _ Hb) in Eb.
  injection Ea as Ea. injection Eb as Eb.
  pose proof (group_val_range h Hh). pose proof (group_val_range m Hm).
  pose proof (group_val_range s Hs). pose proof (group_val_range f Hf).
  pose proof (group_val_range h' Hh'). pose proof (group_val_range m' Hm').
  pose proof (group_val_range s' Hs'). pose proof (group_val_range f' Hf').
  assert (group_val f = group_val f') by lia.
  assert (group_val s = group_val s') by lia.
  assert (group_val m = group_val m') by lia.
  assert (group_val h = group_val h') by lia.
  rewrite (group_val_inj h h'), (group_val_inj m m'), (group_val_inj s s'),
    (group_val_inj f f') by assumption.
  reflexivity.
Qed.

Example parse_collision :
  timecode_to_frames (lit "00:00:00:30") = timecode_to_frames (lit "00:00:01:00").
Proof. reflexivity. Qed.

Lemma parse_injective_within_clock_range_witness :
  lit "00:59:59:29" = lit "00:59:59:29".
Proof.
  apply (parse_injective_within_clock_range _ _ 107999).
  - exists (lit "00"), (lit "59"), (lit "59"), (lit "29").
    repeat split; reflexivity.
  - exists (lit "00"), (lit "59"), (lit "59"), (lit "29").
    repeat split; reflexivity.
  - exists 0, 59, 59, 29. split.
    + exists (lit "00"), (lit "59"), (lit "59"), (lit "29").
      repeat split; reflexivity.
    + repeat split; reflexivity.
  - exists 0, 59, 59, 29. split.
    + exists (lit "00"), (lit "59"), (lit "59"), (lit "29").
      repeat split; reflexivity.
    + repeat split; reflexivity.
  - reflexivity.
  - reflexivity.
Defined.

(** ** The scaffold read back *)

Lemma well_formed_chars (P : ascii -> bool) (tc : str) :
  (forall c, is_digit c = true -> P c = true) -> P ":" = true ->
  well_formed_tc tc -> forallb P tc = true.
Proof.
  intros Hd Hc (h & m & s & f & Hh & Hm & Hs & Hf & ->).
  destruct (two_digits_inv h Hh) as (h1 & h2 & -> & Hh1 & Hh2).
  destruct (two_digits_inv m Hm) as (m1 & m2 & -> & Hm1 & Hm2).
  destruct (two_digits_inv s Hs) as (s1 & s2 & -> & Hs1 & Hs2).
  destruct (two_digits_inv f Hf) as (f1 & f2 & -> & Hf1 & Hf2).
  unfold hhmmssff. cbn [app forallb].
  rewrite (Hd h1 Hh1), (Hd h2 Hh2), (Hd m1 Hm1), (Hd m2 Hm2),
    (Hd s1 Hs1), (Hd s2 Hs2), (Hd f1 Hf1), (Hd f2 Hf2), Hc.
  reflexivity.
Qed.

Lemma template_line_chars (P : ascii -> bool) (c : cue) :
  forallb P (template_line c)
  = forallb P (cue_start c) && forallb P (cue_end c)
    && forallb P (template_line no_cue).
Proof.
  unfold template_line. cbn [cue_start cue_end no_cue fst snd].
  rewrite !forallb_app. cbn [forallb]. btauto.
Qed.

(** A property of characters that holds of the digits, of the colon and
    of the fixed text of a line holds of every line. *)
Lemma template_lines_chars (P : ascii -> bool) (cues : list cue) :
  (forall c, is_digit c = true -> P c = true) -> P ":" = true ->
  forallb P (template_line no_cue) = true ->
  Forall well_formed_cue cues ->
  forallb P (concat (map template_line cues)) = true.
Proof.
  intros Hd Hc Hlit Hall. induction Hall as [|c cues [Hs He] _ IH].
  - reflexivity.
  - cbn [map concat]. rewrite forallb_app, IH, andb_true_r.
    rewrite template_line_chars, Hlit.
    rewrite (well_formed_chars P _ Hd Hc Hs), (well_formed_chars P _ Hd Hc He).
    reflexivity.
Qed.

Lemma generated_chars (P : ascii -> bool) (cues : list cue) :
  (forall c, is_digit c = true -> P c = true) -> P ":" = true ->
  forallb P (header ++ template_line no_cue ++ footer) = true ->
  Forall well_formed_cue cues ->
  forallb P (generate_corrected_itt cues) = true.
Proof.
  intros Hd Hc Hlit Hall. unfold generate_corrected_itt.
  rewrite generate_fold. rewrite !forallb_app in *.
  apply andb_true_iff in Hlit. destruct Hlit as [Hh Hlit].
  apply andb_true_iff in Hlit. destruct Hlit as [Hl Hf].
  rewrite Hh, Hf, (template_lines_chars P cues Hd Hc Hl Hall). reflexivity.
Qed.

Lemma ascii_valid (s : str) :
  forallb (in_range 0 127) s = true -> utf8_valid s = true.
Proof.
  induction s as [|c s IH]; [reflexivity|].
  cbn [forallb utf8_valid]. intros H.
  apply andb_true_iff in H. destruct H as [Hc Hs].
  rewrite Hc. apply IH. exact Hs.
Qed.

Lemma generated_valid (cues : list cue) :
  Forall well_formed_cue cues -> utf8_valid (generate_corrected_itt cues) = true.
Proof.
  intros Hall. apply ascii_valid.
  apply generated_chars; [exact digit_plain|reflexivity|reflexivity|exact Hall].
Qed.

(** *** No language tag in the scaffold *)

Lemma search_lang_miss (c : ascii) (s : str) :
  match_lang (c :: s) = None -> search_lang (c :: s) = search_lang s.
Proof.
  intros H. cbn [search_lang]. rewrite H. reflexivity.
Qed.

Lemma search_lang_no_x (s : str) :
  forallb not_x s = true -> search_lang s = None.
Proof.
  induction s as [|c s IH]; [reflexivity|].
  cbn [forallb]. intros H. apply andb_true_iff in H. destruct H as [Hc Hs].
  rewrite search_lang_miss; [apply IH; exact Hs|].
  unfold match_lang. cbn [lit list_ascii_of_string match_lit].
  unfold not_x in Hc. apply negb_true_iff in Hc.
  rewrite Ascii.eqb_sym, Hc. reflexivity.
Qed.

Lemma search_lang_header (X : str) :
  forallb not_x X = true -> search_lang (header ++ X) = None.
Proof.
  intros H. unfold header, lit.
  cbn [list_ascii_of_string app].
  repeat (rewrite search_lang_miss by reflexivity).
  apply search_lang_no_x. exact H.
Qed.

Lemma generated_no_language (cues : list cue) :
  Forall well_formed_cue cues ->
  search_lang (generate_corrected_itt cues) = None.
Proof.
  intros Hall. unfold generate_corrected_itt. rewrite generate_fold.
  rewrite <- app_assoc. apply search_lang_header.
  rewrite forallb_app. apply andb_true_iff. split; [|reflexivity].
  apply template_lines_chars; [|reflexivity|reflexivity|exact Hall].
  intros c Hc. apply is_digit_range in Hc. unfold not_x.
  rewrite (eqb_code c "x") by (change (code "x") with 120; lia). reflexivity.
Qed.

(** *** The cues of the scaffold *)

Lemma findall_header (X : str) : findall (header ++ X) = findall X.
Proof.
  unfold header, lit. cbn [list_ascii_of_string app].
  repeat (rewrite findall_miss by reflexivity). reflexivity.
Qed.

Lemma placeholder_shape : forallb not_nl placeholder = true /\ ends_at_next_close placeholder.
Proof.
  assert (H : match_inner (placeholder ++ close_tag ++ []) = Some (placeholder, []))
    by reflexivity.
  apply match_inner_spec in H. destruct H as (Hf & Hend & _).
  split; assumption.
Qed.

Lemma template_line_element (c : cue) (X : str) :
  template_line c ++ X = lit "    " ++ p_element (scaffold_cue c) ++ nl :: X.
Proof.
  unfold template_line, p_element, scaffold_cue, placeholder.
  cbn [cue_start cue_end cue_text fst snd].
  rewrite <- !app_assoc. reflexivity.
Qed.

Lemma findall_template_line (c : cue) (X : str) :
  well_formed_cue c ->
  findall (template_line c ++ X) = scaffold_cue c :: findall X.
Proof.
  intros [Hs He]. rewrite template_line_element.
  unfold lit at 1. cbn [list_ascii_of_string app].
  repeat (rewrite findall_miss by reflexivity).
  rewrite (findall_hit _ (scaffold_cue c) (nl :: X)).
  - rewrite findall_miss by reflexivity. reflexivity.
  - apply match_p_spec. split; [|reflexivity].
    destruct placeholder_shape as [Hf Hend].
    repeat split; try assumption; apply well_formed_timecode_text; assumption.
Qed.

Lemma findall_template_lines (cues : list cue) :
  Forall well_formed_cue cues ->
  findall (concat (map template_line cues) ++ footer) = map scaffold_cue cues.
Proof.
  induction 1 as [|c cues Hc _ IH].
  - vm_compute. reflexivity.
  - cbn [map concat]. rewrite <- app_assoc, (findall_template_line c _ Hc), IH.
    reflexivity.
Qed.

Lemma findall_generated (cues : list cue) :
  Forall well_formed_cue cues ->
  findall (generate_corrected_itt cues) = map scaffold_cue cues.
Proof.
  intros Hall. unfold generate_corrected_itt. rewrite generate_fold.
  rewrite <- app_assoc, findall_header. apply findall_template_lines. exact Hall.
Qed.

(** X10.  Reading the generated document back gives the reference
    timing: for reference cues with well-formed timecodes, the extractor
    returns on the generator's output, with one cue per reference cue, in
    order, that has its begin and end texts and the fixed text
    TRANSLATED TEXT HERE, and with the language tag Unknown. *)
Theorem scaffold_read_back (cues : list cue) :
  Forall well_formed_cue cues ->
  extract_itt_data (generate_corrected_itt cues)
  = Ok (map (fun c => (cue_start c, cue_end c, lit "TRANSLATED TEXT HERE")) cues,
        lit "Unknown", generate_corrected_itt cues).
Proof.
  intros Hall. unfold extract_itt_data, decode_utf8.
  rewrite (generated_valid cues Hall). cbn [bind].
  rewrite (findall_generated cues Hall), (generated_no_language cues Hall).
  reflexivity.
Qed.

Lemma sample_reference_well_formed : Forall well_formed_cue sample_reference.
Proof.
  unfold sample_reference.
  repeat (apply Forall_cons; [split|]); try apply Forall_nil;
    first [ well_formed_by "00"%string "00"%string "00"%string "00"%string
          | well_formed_by "00"%string "00"%string "02"%string "00"%string
          | well_formed_by "00"%string "00"%string "04"%string "00"%string
          | well_formed_by "00"%string "00"%string "06"%string "00"%string ].
Defined.

Lemma scaffold_read_back_witness :
  exists cues,
    extract_itt_data (generate_corrected_itt sample_reference)
    = Ok (cues, lit "Unknown", generate_corrected_itt sample_reference)
    /\ List.length cues = 3%nat.
Proof.
  eexists. split.
  - apply (scaffold_read_back sample_reference sample_reference_well_formed).
  - reflexivity.
Defined.

Lemma well_formed_cue_parses (c : cue) : well_formed_cue c -> cue_parses c.
Proof.
  intros [Hs He].
  destruct (well_formed_parses _ Hs) as (n & Hn & _).
  destruct (well_formed_parses _ He) as (k & Hk & _).
  split; [exists n; exact Hn|exists k; exact Hk].
Qed.

Lemma overlap_loop_timing (l l' : list cue) :
  map timing l = map timing l' ->
  forall prev_end, overlap_loop prev_end l = overlap_loop prev_end l'.
Proof.
  revert l'; induction l as [|[[s e] t] l IH]; intros [|[[s' e'] t'] l'] H;
    try discriminate H; intros prev_end; [reflexivity|].
  cbn [map] in H. injection H as Hs He Hrest.
  cbv [cue_start cue_end fst snd] in Hs, He. subst s' e'.
  cbn [overlap_loop].
  destruct (timecode_to_frames s) as [sf|x]; [|reflexivity].
  destruct (timecode_to_frames e) as [ef|x]; [|reflexivity].
  cbn [bind].
  destruct prev_end as [p|]; [destruct (sf <? p); [reflexivity|]|];
    apply IH; exact Hrest.
Qed.

Lemma scaffold_timing (cues : list cue) :
  map timing (map scaffold_cue cues) = map timing cues.
Proof.
  rewrite map_map. apply map_ext. intros [[s e] t]. reflexivity.
Qed.

(** X11.  The generated document passes the comparison it is made for:
    for reference cues with well-formed timecodes, the cues extracted
    from the generator's output compare clean with the reference (line
    counts match, no timecode issue, no extra and no missing line), and
    the overlap checker gives on them what it gives on the reference. *)
Theorem scaffold_compares_clean (cues : list cue) :
  Forall well_formed_cue cues ->
  exists cues' lang content,
    extract_itt_data (generate_corrected_itt cues) = Ok (cues', lang, content)
    /\ compare_files cues cues'
       = Ok {| line_count_match := true; timecode_issues := [];
               extra_lines := []; missing_lines := [] |}
    /\ check_timecode_overlap cues' = check_timecode_overlap cues.
Proof.
  intros Hall.
  exists (map scaffold_cue cues), (lit "Unknown"), (generate_corrected_itt cues).
  split; [|split].
  - unfold extract_itt_data, decode_utf8.
    rewrite (generated_valid cues Hall). cbn [bind].
    rewrite (findall_generated cues Hall), (generated_no_language cues Hall).
    reflexivity.
  - assert (HR : Forall cue_parses cues).
    { rewrite Forall_forall in *. intros c Hc.
      apply well_formed_cue_parses. apply Hall. exact Hc. }
    assert (HT : Forall cue_parses (map scaffold_cue cues)).
    { rewrite Forall_forall in *. intros c Hc.
      apply in_map_iff in Hc. destruct Hc as (c0 & <- & Hc0).
      destruct (HR c0 Hc0) as [Hs He]. split; assumption. }
    unfold compare_files.
    rewrite (compare_loop_spec _ _ HR HT). cbn [bind app skipn].
    rewrite drifting_pairs_same_timing
      by (symmetry; apply scaffold_timing).
    rewrite length_map, Nat.eqb_refl, Nat.ltb_irrefl. reflexivity.
  - apply overlap_loop_timing. apply scaffold_timing.
Qed.

Lemma scaffold_compares_clean_witness :
  exists cues',
    compare_files sample_reference cues'
    = Ok {| line_count_match := true; timecode_issues := [];
            extra_lines := []; missing_lines := [] |}.
Proof.
  destruct (scaffold_compares_clean sample_reference sample_reference_well_formed)
    as (cues' & _ & _ & _ & H & _).
  exists cues'. exact H.
Defined.

(** ** The language tag *)

Lemma span_spec (p : ascii -> bool) (s run rest : str) :
  span p s = (run, rest) ->
  s = run ++ rest /\ forallb p run = true
  /\ match rest with [] => True | c :: _ => p c = false end.
Proof.
  revert run rest; induction s as [|c s IH]; intros run rest H.
  - simpl in H. injection H as <- <-. repeat split.
  - cbn [span] in H. destruct (p c) eqn:Hc.
    + destruct (span p s) as [run' rest'] eqn:E.
      injection H as <- <-. destruct (IH _ _ eq_refl) as (-> & Hf & Hr).
      repeat split; [cbn; rewrite Hc; exact Hf|exact Hr].
    + injection H as <- <-. repeat split. exact Hc.
Qed.

Lemma span_run (p : ascii -> bool) (run rest : str) :
  forallb p run = true ->
  match rest with [] => True | c :: _ => p c = false end ->
  span p (run ++ rest) = (run, rest).
Proof.
  intros Hf Hr. induction run as [|c run IH].
  - destruct rest as [|c rest]; [reflexivity|]. cbn. rewrite Hr. reflexivity.
  - cbn [forallb] in Hf. apply andb_true_iff in Hf. destruct Hf as [Hc Hf].
    cbn [app span]. rewrite Hc, (IH Hf). reflexivity.
Qed.

Lemma quote_not_lang_char (q : ascii) : is_quote q = true -> is_lang_char q = false.
Proof.
  unfold is_quote. intros H. apply orb_true_iff in H.
  destruct H as [H|H]; apply Ascii.eqb_eq in H; subst q; reflexivity.
Qed.

Lemma match_lang_spec (s tag : str) : match_lang s = Some tag <-> lang_here s tag.
Proof.
  unfold match_lang, lang_here. split.
  - destruct (match_lit (lit "xml:lang=") s) as [[|q s1]|] eqn:E;
      try discriminate.
    apply match_lit_spec in E. destruct (is_quote q) eqn:Hq; [|discriminate].
    destruct (span is_lang_char s1) as [[|c run] [|q' rest]] eqn:Es;
      try discriminate.
    destruct (is_quote q') eqn:Hq'; [|discriminate].
    intros H. injection H as <-.
    apply span_spec in Es. destruct Es as (-> & Hf & _).
    exists q, q', rest. split; [exact Hq|]. split; [exact Hq'|].
    split; [discriminate|]. split; [exact Hf|].
    rewrite E. rewrite <- ?app_assoc. reflexivity.
  - intros (q & q' & rest & Hq & Hq' & Hne & Hf & ->).
    rewrite (proj2 (match_lit_spec (lit "xml:lang=") _
                      ([q] ++ tag ++ [q'] ++ rest)) eq_refl).
    cbn [app]. rewrite Hq.
    rewrite (span_run is_lang_char tag (q' :: rest) Hf
               (quote_not_lang_char q' Hq')).
    destruct tag as [|c tag]; [contradiction|]. rewrite Hq'. reflexivity.
Qed.

Lemma lang_here_nil (tag : str) : ~ lang_here [] tag.
Proof.
  intros (q & q' & rest & _ & _ & _ & _ & H). discriminate H.
Qed.

(** The search returns the tag of the first attribute, or nothing when
    there is no attribute. *)
Lemma search_lang_spec (s : str) :
  match search_lang s with
  | Some tag => exists pre, first_lang s pre tag
  | None => no_lang s
  end.
Proof.
  induction s as [|c s IH].
  - cbn. intros pre s' tag H.
    destruct pre; [|discriminate H]. simpl in H. subst s'.
    apply lang_here_nil.
  - cbn [search_lang]. destruct (match_lang (c :: s)) as [tag|] eqn:E.
    + exists [], (c :: s). split; [reflexivity|].
      split; [apply match_lang_spec; exact E|].
      intros pre1 pre2 t H Hne. destruct pre1; destruct pre2;
        try discriminate H. contradiction.
    + assert (Hno : forall t, ~ lang_here (c :: s) t).
      { intros t Ht. apply match_lang_spec in Ht. congruence. }
      destruct (search_lang s) as [tag|].
      * destruct IH as (pre & s' & -> & Hh & Hfirst).
        exists (c :: pre), s'. split; [reflexivity|]. split; [exact Hh|].
        intros [|x pre1] pre2 t H Hne.
        -- simpl in H. subst pre2. apply Hno.
        -- injection H as _ H. apply (Hfirst pre1 pre2 t H Hne).
      * intros [|x pre] s' tag H.
        -- simpl in H. subst s'. apply Hno.
        -- injection H as _ H. apply (IH pre s' tag H).
Qed.

(** X12.  The language tag the extractor returns is the tag of the first
    language attribute of the document, wherever it stands and whichever
    of the two quotes open and close it; when the document holds no such
    attribute, the tag is Unknown. *)
Theorem language_tag_first_attribute (file_content : str) :
  utf8_valid file_content = true ->
  exists cues lang,
    extract_itt_data file_content = Ok (cues, lang, file_content)
    /\ ((no_lang file_content /\ lang = lit "Unknown")
        \/ exists pre, first_lang file_content pre lang).
Proof.
  intros H. unfold extract_itt_data, decode_utf8. rewrite H. cbn [bind].
  pose proof (search_lang_spec file_content) as Hs.
  destruct (search_lang file_content) as [tag|].
  - eexists _, tag. split; [reflexivity|]. right. exact Hs.
  - eexists _, _. split; [reflexivity|]. left. split; [exact Hs|reflexivity].
Qed.

Lemma language_tag_first_attribute_witness :
  exists cues lang,
    extract_itt_data sample_document = Ok (cues, lang, sample_document)
    /\ lang <> [].
Proof.
  destruct (language_tag_first_attribute sample_document eq_refl)
    as (cues & lang & E & Hl).
  exists cues, lang. split; [exact E|].
  destruct Hl as [[_ ->]|(pre & s' & _ & (q & q' & rest & _ & _ & Hne & _) & _)].
  - discriminate.
  - exact Hne.
Defined.

(** ** The page *)

Lemma extract_itt_data_eq (file_content : str) :
  utf8_valid file_content = true ->
  extract_itt_data file_content
  = Ok (findall file_content, language_of file_content, file_content).
Proof.
  intros H. unfold extract_itt_data, decode_utf8, language_of. rewrite H.
  reflexivity.
Qed.

Lemma extract_itt_data_invalid (file_content : str) :
  utf8_valid file_content = false ->
  extract_itt_data file_content = Raise UnicodeDecodeError.
Proof.
  intros H. unfold extract_itt_data, decode_utf8. rewrite H. reflexivity.
Qed.

Lemma checks_return (R T : list cue) :
  Forall cue_parses R -> Forall cue_parses T ->
  exists res b,
    compare_files R T = Ok res /\ check_timecode_overlap T = Ok b
    /\ (negb (errors res b) = true <-> passes R T).
Proof.
  intros HR HT.
  destruct (compare_files_returns R T HR HT) as (res & Hres & Hiss).
  destruct (overlap_loop_spec T HT None) as (b & Hb & Hiff).
  exists res, b. split; [exact Hres|]. split; [exact Hb|].
  destruct (compare_files_Ok R T res Hres) as (Hl & _ & _).
  unfold errors, passes. rewrite Hl, Hiss.
  assert (Hov : b = true <-> overlapping T).
  { rewrite Hiff. unfold overlapping_after. split; [|intros Ho; right; exact Ho].
    intros [(p & c & rest & Hp & _)|Ho]; [discriminate|exact Ho]. }
  rewrite negb_true_iff, !orb_false_iff, negb_false_iff, Nat.eqb_eq.
  split.
  - intros [[H1 H2] H3]. split; [exact H1|]. split.
    + destruct (drifting_pairs R T); [reflexivity|discriminate H2].
    + intros Ho. apply Hov in Ho. congruence.
  - intros (H1 & H2 & H3). split; [split; [exact H1|rewrite H2; reflexivity]|].
    destruct b; [exfalso; apply H3; apply Hov; reflexivity|reflexivity].
Qed.

Lemma verdict_passes (R T : list cue) :
  Forall cue_parses R -> Forall cue_parses T ->
  (verdict R T = true <-> passes R T).
Proof.
  intros HR HT. destruct (checks_return R T HR HT) as (res & b & Hc & Ho & Hiff).
  unfold verdict. rewrite Hc, Ho. exact Hiff.
Qed.

Lemma str_eqb_eq (a b : str) : str_eqb a b = true <-> a = b.
Proof.
  unfold str_eqb. destruct (list_eq_dec ascii_dec a b); split; intros H;
    try reflexivity; try assumption; try discriminate; contradiction.
Qed.

Lemma dict_get_set_same (k v : str) (d : dict) : dict_get k (dict_set k v d) = Some v.
Proof.
  induction d as [|[k' v'] d IH]; cbn [dict_set dict_get].
  - rewrite (proj2 (str_eqb_eq k k) eq_refl). reflexivity.
  - destruct (str_eqb k k') eqn:E; cbn [dict_get].
    + rewrite (proj2 (str_eqb_eq k k) eq_refl). reflexivity.
    + rewrite E. exact IH.
Qed.

Lemma dict_get_set_other (k k0 v : str) (d : dict) :
  k <> k0 -> dict_get k (dict_set k0 v d) = dict_get k d.
Proof.
  intros Hne. assert (Hk : str_eqb k k0 = false).
  { destruct (str_eqb k k0) eqn:E; [|reflexivity].
    apply str_eqb_eq in E. contradiction. }
  induction d as [|[k' v'] d IH]; cbn [dict_set dict_get].
  - rewrite Hk. reflexivity.
  - destruct (str_eqb k0 k') eqn:E; cbn [dict_get].
    + apply str_eqb_eq in E. subst k'. rewrite Hk. reflexivity.
    + rewrite IH. reflexivity.
Qed.

Lemma summary_loop_spec (R : list cue) (files : list UploadedFile) :
  Forall cue_parses R -> Forall decodes files ->
  forall summary d errors_found,
  exists d',
    summary_loop R files summary d errors_found
    = Ok (summary ++ map (summary_row R) files, d',
          errors_after R files errors_found)
    /\ (forall k, ~ In k (map file_name files) -> dict_get k d' = dict_get k d)
    /\ (NoDup (map file_name files) ->
        forall f, In f files -> dict_get (file_name f) d' = Some (file_read f)).
Proof.
  intros HR Hall. induction Hall as [|f files Hf _ IH]; intros summary d ef.
  - exists d. cbn. rewrite app_nil_r. repeat split. intros _ f [].
  - cbn [summary_loop]. rewrite (extract_itt_data_eq _ Hf). cbn [bind].
    destruct (checks_return R (findall (file_read f)) HR (findall_parses _))
      as (res & b & Hc & Ho & _).
    rewrite Hc, Ho. cbn [bind].
    destruct (IH (summary ++ [(file_name f, language_of (file_read f),
                               negb (errors res b))])
                 (dict_set (file_name f) (file_read f) d)
                 (Some (errors res b)))
      as (d' & E & Hframe & Hown).
    exists d'. split; [|split].
    + rewrite E. rewrite <- app_assoc. cbn [app map errors_after fold_left].
      unfold summary_row at 2, errors_after, verdict. rewrite Hc, Ho.
      rewrite negb_involutive. reflexivity.
    + intros k Hk. cbn [map] in Hk. rewrite Hframe.
      * apply dict_get_set_other. intros ->. apply Hk. left. reflexivity.
      * intros Hin. apply Hk. right. exact Hin.
    + intros Hnd g [<-|Hg].
      * cbn [map] in Hnd. inversion Hnd; subst. rewrite Hframe by assumption.
        apply dict_get_set_same.
      * apply Hown; [cbn [map] in Hnd; inversion Hnd; assumption|exact Hg].
Qed.

Lemma show_all_spec (ws : list widget) : show_all ws = (ws, inl tt).
Proof.
  induction ws as [|w ws IH]; [reflexivity|].
  cbn [show_all]. unfold ui_bind, show. rewrite IH. reflexivity.
Qed.

Lemma downloads_app (a b : list widget) : downloads (a ++ b) = downloads a ++ downloads b.
Proof.
  unfold downloads. apply flat_map_app.
Qed.

Lemma downloads_issues (l : list issue) :
  downloads (map (fun p => w_issue (fst p) (snd p)) l) = [].
Proof.
  induction l as [|p l IH]; [reflexivity|exact IH].
Qed.

Lemma findings_app (a b : list widget) :
  existsb is_finding (a ++ b) = existsb is_finding a || existsb is_finding b.
Proof.
  apply existsb_app.
Qed.

Lemma findings_issues (l : list issue) :
  existsb is_finding (map (fun p => w_issue (fst p) (snd p)) l) = truthy l.
Proof.
  destruct l; reflexivity.
Qed.

(** The block of an expander, on cues whose timecodes parse: it ends
    without exception, begins with the language line, reports a finding
    exactly when the two checks find one, and offers a download exactly
    when [errors_found] holds true. *)
Lemma report_spec (R T : list cue) (content label lang tcontent : str) (b : bool) :
  Forall cue_parses R -> Forall cue_parses T ->
  exists body,
    report R content (Some b) label T lang tcontent = (body, inl tt)
    /\ downloads body
       = (if b then [(label, generate_corrected_itt R)] else [])
    /\ (exists rest, body = language_line lang :: rest)
    /\ existsb is_finding body = negb (verdict R T).
Proof.
  intros HR HT.
  destruct (checks_return R T HR HT) as (res & o & Hc & Ho & _).
  unfold verdict, errors. rewrite Hc, Ho, negb_involutive.
  unfold report. rewrite Hc, Ho. cbn [engine]. unfold ui_ret, show.
  cbn [ui_bind]. rewrite show_all_spec. fold (language_line lang).
  set (lw := language_line lang).
  assert (Hlw : downloads [lw] = [])
    by (subst lw; unfold language_line; destruct (str_eqb _ _); reflexivity).
  assert (Hlf : existsb is_finding [lw] = false)
    by (subst lw; unfold language_line; destruct (str_eqb _ _); reflexivity).
  pose proof (findings_issues (timecode_issues res)) as Hfi.
  destruct (line_count_match res);
    destruct (truthy (extra_lines res)); destruct (truthy (missing_lines res));
    destruct (truthy (timecode_issues res)); destruct o; destruct b;
    cbn [ui_bind app]; eexists; (split; [reflexivity|]);
    (split; [|split; [eexists; reflexivity|]]);
    change (lw :: ?l) with ([lw] ++ l);
    repeat (rewrite downloads_app || rewrite downloads_issues || rewrite Hlw
            || rewrite findings_app || rewrite Hfi || rewrite Hlf
            || (cbn [downloads flat_map app existsb is_finding orb]));
    rewrite ?orb_true_r; reflexivity.
Qed.

Lemma expanders_loop_spec (R : list cue) (content : str) (d : dict) (b : bool)
    (files : list UploadedFile) :
  Forall cue_parses R -> Forall decodes files ->
  (forall f, In f files -> dict_get (file_name f) d = Some (file_read f)) ->
  exists shown,
    expanders_loop R content d (Some b) files = (shown, inl tt)
    /\ Forall2 (expander_for R b) files shown.
Proof.
  intros HR Hall Hd. induction Hall as [|f files Hf _ IH].
  - exists []. split; [reflexivity|constructor].
  - cbn [expanders_loop]. unfold dict_item.
    rewrite (Hd f (or_introl eq_refl)). unfold ui_ret at 1. cbn [ui_bind].
    rewrite (extract_itt_data_eq _ Hf). cbn [engine ui_ret ui_bind].
    destruct (report_spec R (findall (file_read f)) content (file_name f)
                (language_of (file_read f)) (file_read f) b HR
                (findall_parses _)) as (body & Hbody & Hdl & Hlang & Hfind).
    unfold within_expander. rewrite Hbody.
    destruct IH as (shown & Hshown & Hall2).
    { intros g Hg. apply Hd. right. exact Hg. }
    rewrite Hshown. cbn [ui_bind app].
    eexists. split; [reflexivity|].
    constructor; [|exact Hall2]. exists body.
    split; [reflexivity|]. split; [exact Hdl|]. split; assumption.
Qed.

Lemma errors_after_last (R : list cue) (files : list UploadedFile) (ef : option bool) :
  files <> [] ->
  errors_after R files ef
  = Some (negb (verdict R (findall (file_read (last_file files))))).
Proof.
  unfold errors_after, last_file. revert ef.
  induction files as [|f files IH]; intros ef Hne; [contradiction|].
  destruct files as [|g files].
  - reflexivity.
  - cbn [fold_left]. cbn [fold_left] in IH.
    rewrite (IH (Some (negb (verdict R (findall (file_read f)))))) by discriminate.
    reflexivity.
Qed.

(** The page when the reference and all translations decode and the
    translations have different names. *)
Lemma main_spec (english_file : UploadedFile) (files : list UploadedFile) :
  decodes english_file -> files <> [] -> Forall decodes files ->
  NoDup (map file_name files) ->
  let R := findall (file_read english_file) in
  exists shown,
    main (Some english_file) files
    = (page_head ++ w_summary (map (summary_row R) files) :: shown, inl tt)
    /\ Forall2
         (expander_for R
            (negb (verdict R (findall (file_read (last_file files))))))
         files shown.
Proof.
  intros He Hne Hall Hnd R.
  destruct (summary_loop_spec R files (findall_parses _) Hall [] [] None)
    as (d & Hloop & _ & Hown).
  rewrite (errors_after_last R files None Hne) in Hloop.
  destruct (expanders_loop_spec R (file_read english_file) d
              (negb (verdict R (findall (file_read (last_file files)))))
              files (findall_parses _) Hall (Hown Hnd))
    as (shown & Hshown & Hall2).
  exists shown. split; [|exact Hall2].
  unfold main. destruct files as [|f files]; [contradiction|].
  rewrite (extract_itt_data_eq _ He). fold R.
  cbn [engine]. unfold ui_ret, show. cbn [ui_bind]. rewrite Hloop.
  cbn [engine]. unfold ui_ret. cbn [ui_bind]. rewrite Hshown. reflexivity.
Qed.

(** X13.  When the reference and every translation decode and the
    translations have different names, the script runs to its end, and
    the summary table has one row per translation, in upload order, with
    its file name, its language tag and a check mark exactly when the
    translation has as many cues as the reference, no aligned pair that
    drifts by more than 3 frames, and no overlap among its cues. *)
Theorem page_summary_rows (english_file : UploadedFile) (files : list UploadedFile) :
  decodes english_file -> files <> [] -> Forall decodes files ->
  NoDup (map file_name files) ->
  exists rows shown,
    main (Some english_file) files
    = ([w_title; w_upload_english; w_upload_translated]
         ++ w_summary rows :: shown, inl tt)
    /\ Forall2
         (fun f row =>
            exists ok,
              row = (file_name f, language_of (file_read f), ok)
              /\ (ok = true
                  <-> passes (findall (file_read english_file))
                             (findall (file_read f))))
         files rows.
Proof.
  intros He Hne Hall Hnd.
  destruct (main_spec english_file files He Hne Hall Hnd) as (shown & Hm & _).
  eexists _, shown. split; [exact Hm|].
  clear. induction files as [|f files IH]; [constructor|].
  cbn [map]. constructor; [|exact IH].
  eexists. split; [reflexivity|]. apply verdict_passes; apply findall_parses.
Qed.

Lemma sample_files_decode :
  decodes sample_english_file
  /\ Forall decodes [sample_french_file; sample_short_file]
  /\ NoDup (map file_name [sample_french_file; sample_short_file]).
Proof.
  split; [reflexivity|]. split.
  - repeat constructor.
  - repeat constructor; cbn; intros H;
      repeat (destruct H as [H|H]; [discriminate H|]); exact H.
Defined.

Lemma page_summary_rows_witness :
  exists rows shown,
    main (Some sample_english_file) [sample_french_file; sample_short_file]
    = (page_head ++ w_summary rows :: shown, inl tt)
    /\ List.length rows = 2%nat.
Proof.
  destruct sample_files_decode as (He & Hall & Hnd).
  destruct (page_summary_rows sample_english_file
              [sample_french_file; sample_short_file] He
              ltac:(discriminate) Hall Hnd) as (rows & shown & Hm & H2).
  exists rows, shown. split; [exact Hm|].
  apply Forall2_length in H2. symmetry. exact H2.
Defined.

(** X14.  The download of the corrected document follows the last
    upload, not the file of the expander: under the conditions of X13,
    every expander offers the download (of the scaffold of the
    reference) when the translation uploaded last fails the checks, and
    no expander offers it when that one passes; [errors_found] is not
    computed again in the second loop. *)
Theorem download_follows_last_upload (english_file : UploadedFile)
    (files : list UploadedFile) :
  decodes english_file -> files <> [] -> Forall decodes files ->
  NoDup (map file_name files) ->
  let R := findall (file_read english_file) in
  exists rows shown,
    main (Some english_file) files
    = ([w_title; w_upload_english; w_upload_translated]
         ++ w_summary rows :: shown, inl tt)
    /\ Forall2
         (fun f w =>
            exists body,
              w = w_expander (file_name f) body
              /\ ((passes R (findall (file_read (last_file files)))
                   /\ downloads body = [])
                  \/ (~ passes R (findall (file_read (last_file files)))
                      /\ downloads body
                         = [(file_name f, generate_corrected_itt R)])))
         files shown.
Proof.
  intros He Hne Hall Hnd R.
  destruct (main_spec english_file files He Hne Hall Hnd) as (shown & Hm & H2).
  eexists _, shown. split; [exact Hm|].
  fold R in H2.
  pose proof (verdict_passes R (findall (file_read (last_file files)))
                (findall_parses _) (findall_parses _)) as Hv.
  eapply Forall2_impl; [|exact H2].
  intros f w (body & -> & Hdl & _). exists body. split; [reflexivity|].
  destruct (verdict R (findall (file_read (last_file files)))).
  - left. split; [apply Hv; reflexivity|exact Hdl].
  - right. split; [|exact Hdl]. intros Hp. apply Hv in Hp. discriminate Hp.
Qed.

Lemma download_follows_last_upload_witness :
  exists body rest,
    skipn 4 (fst (main (Some sample_english_file)
                    [sample_french_file; sample_short_file]))
    = w_expander (lit "fr.itt") body :: rest
    /\ downloads body
       = [(lit "fr.itt",
           generate_corrected_itt (findall (file_read sample_english_file)))].
Proof.
  destruct sample_files_decode as (He & Hall & Hnd).
  destruct (download_follows_last_upload sample_english_file
              [sample_french_file; sample_short_file] He
              ltac:(discriminate) Hall Hnd) as (rows & shown & Hm & H2).
  inversion H2 as [|f w fs ws (body & Hw & Hdl) Hrest]; subst.
  exists body, ws. split; [rewrite Hm; reflexivity|].
  destruct Hdl as [[Hp _]|[_ Hdl]]; [|exact Hdl].
  exfalso. destruct Hp as [Hlen _]. vm_compute in Hlen. discriminate Hlen.
Defined.

Lemma summary_loop_raises (R : list cue) (files : list UploadedFile) :
  Forall cue_parses R -> Exists (fun f => ~ decodes f) files ->
  forall summary d errors_found,
    summary_loop R files summary d errors_found = Raise UnicodeDecodeError.
Proof.
  intros HR. induction files as [|f files IH]; intros Hex summary d ef.
  - inversion Hex.
  - cbn [summary_loop]. destruct (utf8_valid (file_read f)) eqn:Hf.
    + rewrite (extract_itt_data_eq _ Hf). cbn [bind].
      destruct (checks_return R (findall (file_read f)) HR (findall_parses _))
        as (res & b & Hc & Ho & _).
      rewrite Hc, Ho. cbn [bind]. apply IH.
      inversion Hex; subst; [contradiction|assumption].
    + rewrite (extract_itt_data_invalid _ Hf). reflexivity.
Qed.

(** X15.  One upload that is no UTF-8 stops the whole page: when the
    reference or any of the translations does not decode, the script
    ends with [UnicodeDecodeError] having shown the title and the upload
    fields only, no summary row and no expander, not even for the
    translations that decode.  With no reference or no translation
    uploaded it shows the same and ends normally. *)
Theorem page_stops_on_undecodable (english_file : UploadedFile)
    (files : list UploadedFile) :
  (files <> [] ->
   ~ decodes english_file \/ Exists (fun f => ~ decodes f) files ->
   main (Some english_file) files
   = ([w_title; w_upload_english; w_upload_translated],
      inr (Engine UnicodeDecodeError)))
  /\ main None files
     = ([w_title; w_upload_english; w_upload_translated], inl tt)
  /\ main (Some english_file) []
     = ([w_title; w_upload_english; w_upload_translated], inl tt).
Proof.
  split; [|split; [destruct files|]; reflexivity].
  intros Hne Hbad. unfold main. destruct files as [|f files]; [contradiction|].
  unfold decodes in Hbad.
  destruct (utf8_valid (file_read english_file)) eqn:He.
  - destruct Hbad as [Hbad|Hex]; [exfalso; apply Hbad; reflexivity|].
    rewrite (extract_itt_data_eq _ He).
    cbn [engine]. unfold ui_ret, show. cbn [ui_bind].
    rewrite (summary_loop_raises _ _ (findall_parses _) Hex). reflexivity.
  - rewrite (extract_itt_data_invalid _ He). reflexivity.
Qed.

Lemma page_stops_on_undecodable_witness :
  main (Some sample_english_file) [sample_french_file; sample_broken_file]
  = (page_head, inr (Engine UnicodeDecodeError)).
Proof.
  apply (proj1 (page_stops_on_undecodable sample_english_file
                  [sample_french_file; sample_broken_file])).
  - discriminate.
  - right. apply Exists_cons_tl. apply Exists_cons_hd.
    unfold decodes. vm_compute. discriminate.
Defined.

(** ** White space around a timecode *)

Lemma space_not_digit (c : ascii) : is_space c = true -> digit_val c = None.
Proof.
  unfold is_space, digit_val. intros H.
  destruct (Z.leb_spec 48 (code c)); destruct (Z.leb_spec (code c) 57);
    cbn [andb]; try reflexivity.
  exfalso. apply orb_true_iff in H. destruct H as [H|H].
  - apply andb_true_iff in H. destruct H as [_ H]. apply Z.leb_le in H. lia.
  - apply Z.eqb_eq in H. lia.
Qed.

Lemma space_not_char (c k : ascii) :
  is_space c = true -> is_space k = false -> Ascii.eqb c k = false.
Proof.
  intros Hc Hk. apply Ascii.eqb_neq. intros ->. congruence.
Qed.

Lemma lstrip_spaces (pre s : str) :
  forallb is_space pre = true -> lstrip (pre ++ s) = lstrip s.
Proof.
  induction pre as [|c pre IH]; [reflexivity|].
  cbn [forallb app lstrip]. intros H. apply andb_true_iff in H.
  destruct H as [Hc Hp]. rewrite Hc. apply IH. exact Hp.
Qed.

Lemma lstrip_cons_app (s post : str) (c : ascii) (s' : str) :
  lstrip s = c :: s' -> lstrip (s ++ post) = c :: s' ++ post.
Proof.
  induction s as [|x s IH]; [discriminate|].
  cbn [app lstrip]. destruct (is_space x); [exact IH|].
  intros H. injection H as -> ->. reflexivity.
Qed.

Lemma lstrip_nil_app (s post : str) :
  forallb is_space post = true -> lstrip s = [] -> lstrip (s ++ post) = [].
Proof.
  intros Hp. induction s as [|x s IH].
  - intros _. cbn [app]. rewrite <- (app_nil_r post).
    exact (lstrip_spaces post [] Hp).
  - cbn [app lstrip]. destruct (is_space x); [exact IH|discriminate].
Qed.

Lemma scan_digits_spaces (post : str) :
  forallb is_space post = true ->
  forall (t : str) (acc : Z) (pu : bool),
    scan_digits acc pu (t ++ post)
    = match scan_digits acc pu t with
      | Some (v, rest) => Some (v, rest ++ post)
      | None => None
      end.
Proof.
  intros Hp. induction t as [|c t IH]; intros acc pu.
  - cbn [app]. destruct post as [|c post]; [destruct pu; reflexivity|].
    cbn [forallb] in Hp. apply andb_true_iff in Hp. destruct Hp as [Hc _].
    cbn [scan_digits]. rewrite (space_not_digit c Hc).
    rewrite (space_not_char c "_" Hc eq_refl). destruct pu; reflexivity.
  - cbn [app scan_digits]. destruct (digit_val c); [apply IH|].
    destruct (Ascii.eqb c "_"); [destruct pu; [reflexivity|apply IH]|].
    destruct pu; reflexivity.
Qed.

Lemma int_unsigned_spaces (t post : str) :
  forallb is_space post = true -> int_unsigned (t ++ post) = int_unsigned t.
Proof.
  intros Hp. destruct t as [|c t].
  - destruct post as [|c post]; [reflexivity|].
    cbn [forallb] in Hp. apply andb_true_iff in Hp. destruct Hp as [Hc _].
    cbn [app int_unsigned]. unfold is_digit.
    rewrite (space_not_digit c Hc). reflexivity.
  - cbn [app int_unsigned]. destruct (is_digit c); [|reflexivity].
    change (c :: t ++ post) with ((c :: t) ++ post).
    rewrite (scan_digits_spaces post Hp).
    destruct (scan_digits 0 false (c :: t)) as [[v rest]|]; [|reflexivity].
    destruct (lstrip rest) as [|x r] eqn:E.
    + rewrite (lstrip_nil_app rest post Hp E). reflexivity.
    + rewrite (lstrip_cons_app rest post x r E). reflexivity.
Qed.

Lemma long_from_string_spaces (pre s post : str) :
  forallb is_space pre = true -> forallb is_space post = true ->
  long_from_string (pre ++ s ++ post) = long_from_string s.
Proof.
  intros Hpre Hpost. unfold long_from_string. rewrite (lstrip_spaces pre _ Hpre).
  destruct (lstrip s) as [|c s'] eqn:E.
  - rewrite (lstrip_nil_app s post Hpost E). reflexivity.
  - rewrite (lstrip_cons_app s post c s' E).
    destruct (Ascii.eqb c "+"); [apply int_unsigned_spaces; exact Hpost|].
    destruct (Ascii.eqb c "-");
      [rewrite (int_unsigned_spaces _ _ Hpost); reflexivity|].
    change (c :: s' ++ post) with ((c :: s') ++ post).
    apply int_unsigned_spaces. exact Hpost.
Qed.

Lemma plain_not_in (lo hi : Z) (p : ascii) :
  in_range 0 127 p = true -> 128 <= lo -> in_range lo hi p = false.
Proof.
  intros H Hlo. apply in_range_false. apply in_range_spec in H. lia.
Qed.

(** ASCII text behind a text does not change the character the text
    begins with. *)
Lemma char_at_app_plain (b : ascii) (s post : str) :
  forallb (in_range 0 127) post = true ->
  char_at ((b :: s) ++ post) = char_at (b :: s).
Proof.
  intros Hp.
  assert (Hc : forall p, In p post -> cont p = false
                 /\ in_range 160 191 p = false /\ in_range 128 159 p = false
                 /\ in_range 144 191 p = false /\ in_range 128 143 p = false).
  { intros p Hin. rewrite forallb_forall in Hp. specialize (Hp p Hin).
    unfold cont. repeat split; apply plain_not_in; (exact Hp || lia). }
  destruct s as [|b1 [|b2 [|b3 s]]]; [| | |reflexivity];
    destruct post as [|p0 [|p1 [|p2 post]]]; try reflexivity;
    cbn [app char_at];
    repeat match goal with
           | |- context [cont ?p] =>
               rewrite (proj1 (Hc p ltac:(cbn [In]; tauto)))
           | |- context [in_range 160 191 ?p] =>
               rewrite (proj1 (proj2 (Hc p ltac:(cbn [In]; tauto))))
           | |- context [in_range 128 159 ?p] =>
               rewrite (proj1 (proj2 (proj2 (Hc p ltac:(cbn [In]; tauto)))))
           | |- context [in_range 144 191 ?p] =>
               rewrite (proj1 (proj2 (proj2 (proj2 (Hc p ltac:(cbn [In]; tauto))))))
           | |- context [in_range 128 143 ?p] =>
               rewrite (proj2 (proj2 (proj2 (proj2 (Hc p ltac:(cbn [In]; tauto))))))
           end;
    rewrite ?andb_false_r;
    repeat match goal with
           | |- context [if ?c then _ else _] => destruct c
           end;
    reflexivity.
Qed.

(** ASCII text behind a text is read as it is, and does not change how
    the text is read. *)
Lemma to_ascii_app_plain (post : str) :
  forallb (in_range 0 127) post = true ->
  forall (s : str) (k : nat),
    (k <= List.length s)%nat ->
    to_ascii_from k (s ++ post) = to_ascii_from k s ++ post.
Proof.
  intros Hp. induction s as [|b s IH]; intros k Hk.
  - cbn [List.length] in Hk. replace k with 0%nat by lia.
    cbn [app]. exact (to_ascii_plain post Hp).
  - cbn [List.length] in Hk. destruct k as [|k].
    + change (to_ascii_from 0 ((b :: s) ++ post))
        with (match char_at ((b :: s) ++ post) with
              | Some (cp, n) =>
                  ascii_of_char b cp :: to_ascii_from (n - 1) (s ++ post)
              | None => "?"%char :: to_ascii_from 0 (s ++ post)
              end).
      rewrite (char_at_app_plain b s post Hp).
      cbn [to_ascii_from].
      destruct (char_at (b :: s)) as [[cp n]|] eqn:E.
      * pose proof (char_at_length _ _ _ E) as Hn. cbn [List.length] in Hn.
        rewrite IH by lia. reflexivity.
      * rewrite IH by lia. reflexivity.
    + cbn [app to_ascii_from]. apply IH. lia.
Qed.

Lemma space_plain (c : ascii) : is_space c = true -> in_range 0 127 c = true.
Proof.
  unfold is_space. intros H. apply in_range_spec.
  pose proof (code_range c).
  apply orb_true_iff in H. destruct H as [H|H].
  - apply andb_true_iff in H. destruct H as [_ H]. apply Z.leb_le in H. lia.
  - apply Z.eqb_eq in H. lia.
Qed.

Lemma spaces_plain (s : str) :
  forallb is_space s = true -> forallb (in_range 0 127) s = true.
Proof.
  rewrite !forallb_forall. intros H c Hc. apply space_plain. apply H. exact Hc.
Qed.

Lemma py_int_spaces (pre s post : str) :
  forallb is_space pre = true -> forallb is_space post = true ->
  py_int (pre ++ s ++ post) = py_int s.
Proof.
  intros Hpre Hpost. unfold py_int.
  rewrite (to_ascii_plain_app pre _ (spaces_plain pre Hpre)).
  unfold to_ascii.
  rewrite (to_ascii_app_plain post (spaces_plain post Hpost) s 0 (Nat.le_0_l _)).
  apply long_from_string_spaces; assumption.
Qed.

Lemma split_nonempty (sep : ascii) (s : str) : split sep s <> [].
Proof.
  destruct s as [|c s]; cbn [split]; [discriminate|].
  destruct (Ascii.eqb c sep); [discriminate|].
  destruct (split sep s); discriminate.
Qed.

Lemma split_app_field (pre s : str) :
  forallb is_space pre = true ->
  split ":" (pre ++ s)
  = match split ":" s with
    | [] => [pre]
    | field :: fields => (pre ++ field) :: fields
    end.
Proof.
  induction pre as [|c pre IH]; intros H.
  - cbn [app]. pose proof (split_nonempty ":" s) as Hs.
    destruct (split ":" s); [contradiction|reflexivity].
  - cbn [forallb] in H. apply andb_true_iff in H. destruct H as [Hc Hp].
    cbn [app split]. rewrite (space_not_char c ":" Hc eq_refl), (IH Hp).
    destruct (split ":" s); reflexivity.
Qed.

Lemma split_app_last (s post : str) :
  forallb is_space post = true ->
  exists init l,
    split ":" s = init ++ [l] /\ split ":" (s ++ post) = init ++ [l ++ post].
Proof.
  intros Hp. induction s as [|c s (init & l & Hs & Hsp)].
  - exists [], []. split; [reflexivity|].
    cbn [app]. pose proof (split_app_field post [] Hp) as H.
    cbn [split] in H. rewrite app_nil_r in H. exact H.
  - cbn [app split]. rewrite Hs, Hsp. destruct (Ascii.eqb c ":").
    + exists ([] :: init), l. split; reflexivity.
    + destruct init as [|f fs].
      * exists [], (c :: l). split; reflexivity.
      * exists ((c :: f) :: fs), l. split; reflexivity.
Qed.

Lemma int_spaces (pre s post : str) :
  forallb is_space pre = true -> forallb is_space post = true ->
  int (pre ++ s ++ post) = int s.
Proof.
  intros Hpre Hpost. unfold int. rewrite (py_int_spaces pre s post Hpre Hpost).
  reflexivity.
Qed.

Lemma timecode_leading_spaces (pre tc : str) :
  forallb is_space pre = true ->
  timecode_to_frames (pre ++ tc) = timecode_to_frames tc.
Proof.
  intros Hp. unfold timecode_to_frames. rewrite (split_app_field pre tc Hp).
  destruct (split ":" tc) as [|a [|b [|c [|d [|x l]]]]]; try reflexivity.
  rewrite <- (app_nil_r a) at 1. rewrite (int_spaces pre a [] Hp eq_refl).
  reflexivity.
Qed.

Lemma timecode_trailing_spaces (tc post : str) :
  forallb is_space post = true ->
  timecode_to_frames (tc ++ post) = timecode_to_frames tc.
Proof.
  intros Hp. unfold timecode_to_frames.
  destruct (split_app_last tc post Hp) as (init & l & -> & ->).
  destruct init as [|a [|b [|c [|x init]]]]; cbn [app]; try reflexivity.
  - change (l ++ post) with ([] ++ l ++ post).
    rewrite (int_spaces [] l post eq_refl Hp). reflexivity.
  - destruct init; reflexivity.
Qed.

(** X16.  White space around a timecode does not change what it parses
    to: with any run of tabs, line feeds, vertical tabs, form feeds,
    carriage returns and spaces before and after it, the text gives the
    same frame count, or the same error, as without. *)
Theorem parse_ignores_surrounding_space (pre tc post : str) :
  forallb is_space pre = true -> forallb is_space post = true ->
  timecode_to_frames (pre ++ tc ++ post) = timecode_to_frames tc.
Proof.
  intros Hpre Hpost.
  rewrite (timecode_leading_spaces pre _ Hpre).
  apply timecode_trailing_spaces. exact Hpost.
Qed.

Lemma parse_ignores_surrounding_space_witness :
  timecode_to_frames (lit "  " ++ lit "00:00:01:00" ++ [nl]) = Ok 30.
Proof.
  rewrite (parse_ignores_surrounding_space (lit "  ") (lit "00:00:01:00") [nl]
             eq_refl eq_refl).
  reflexivity.
Defined.

(** X17.  Under the conditions of X13 the expander of a translation
    begins with the line on its own language, an error exactly when the
    tag is en and a success for every other tag (Unknown included), and
    it reports a finding (line count warning, extra or missing lines,
    timecode mismatches, overlap) exactly when this translation fails
    the checks, in agreement with its summary row. *)
Theorem expander_reports_own_findings (english_file : UploadedFile)
    (files : list UploadedFile) :
  decodes english_file -> files <> [] -> Forall decodes files ->
  NoDup (map file_name files) ->
  exists rows shown,
    main (Some english_file) files
    = ([w_title; w_upload_english; w_upload_translated]
         ++ w_summary rows :: shown, inl tt)
    /\ Forall2
         (fun f w =>
            exists line rest,
              w = w_expander (file_name f) (line :: rest)
              /\ line
                 = (if str_eqb (language_of (file_read f)) (lit "en")
                    then w_language_error (language_of (file_read f))
                    else w_language_success (language_of (file_read f)))
              /\ (existsb is_finding (line :: rest) = false
                  <-> passes (findall (file_read english_file))
                             (findall (file_read f))))
         files shown.
Proof.
  intros He Hne Hall Hnd.
  destruct (main_spec english_file files He Hne Hall Hnd) as (shown & Hm & H2).
  eexists _, shown. split; [exact Hm|].
  eapply Forall2_impl; [|exact H2].
  intros f w (body & -> & _ & [rest ->] & Hfind).
  exists (language_line (language_of (file_read f))), rest.
  split; [reflexivity|]. split; [reflexivity|].
  rewrite Hfind, negb_false_iff.
  apply verdict_passes; apply findall_parses.
Qed.

Lemma expander_reports_own_findings_witness :
  exists rows shown,
    main (Some sample_english_file) [sample_french_file; sample_short_file]
    = (page_head ++ w_summary rows :: shown, inl tt)
    /\ List.length shown = 2%nat.
Proof.
  destruct sample_files_decode as (He & Hall & Hnd).
  destruct (expander_reports_own_findings sample_english_file
              [sample_french_file; sample_short_file] He
              ltac:(discriminate) Hall Hnd) as (rows & shown & Hm & H2).
  exists rows, shown. split; [exact Hm|].
  apply Forall2_length in H2. symmetry. exact H2.
Defined.

(** ** The scaffold determines the timing *)

(** X18.  Two reference sequences with well-formed timecodes that give
    the same generated document have the same begin and end texts, cue
    by cue: with C6, the document is a faithful record of the timing and
    of nothing else. *)
Theorem scaffold_determines_timing (cues cues' : list cue) :
  Forall well_formed_cue cues -> Forall well_formed_cue cues' ->
  generate_corrected_itt cues = generate_corrected_itt cues' ->
  map timing cues = map timing cues'.
Proof.
  intros H H' E.
  pose proof (findall_generated cues H) as F.
  rewrite E, (findall_generated cues' H') in F.
  rewrite <- (scaffold_timing cues), <- (scaffold_timing cues'), F.
  reflexivity.
Qed.

Lemma scaffold_determines_timing_witness :
  map timing sample_reference = map timing sample_reference.
Proof.
  apply scaffold_determines_timing;
    [exact sample_reference_well_formed..|reflexivity].
Defined.
